(** * jpod_nano: the playback core and its track source

    A shallow embedding of [src/audio/playlist.cpp] and
    [src/audio/player.cpp], and the properties of the playback core
    stated over it.

    Conventions.
    - [size_t] values are kept in [Z] and reduced modulo [2^64] where the
      C++ arithmetic can leave the range; [int] values are kept in [Z] and
      [static_cast<int>] is [to_int] (two's complement on 32 bits).
    - [float] is IEEE binary32, taken from [SpecFloat] with [prec = 24]
      and [emax = 128].
    - Time is in nanoseconds ([steady_clock]'s tick); a
      [std::chrono::milliseconds] value is kept in milliseconds.
    - The decoder (mpg123), the output device (SDL) and the directory
      listing are outside the repository: their answers are inputs of the
      functions that call them, and the calls made are observable through
      the modelled handle state. *)

From Stdlib Require Import ZArith QArith Qminmax String Ascii Lia SpecFloat.
From stdpp Require Import base list strings sorting gmap.

Local Open Scope Z_scope.

(* ===================================================================== *)
(** * Machine integers *)
(* ===================================================================== *)

Definition SIZE_MOD : Z := 2 ^ 64.

(** Result of an unsigned 64-bit operation. *)
Definition to_size_t (z : Z) : Z := z mod SIZE_MOD.

Definition INT_MAX : Z := 2 ^ 31 - 1.
Definition INT_MIN : Z := - 2 ^ 31.

(** [static_cast<int>] of a wider signed integer. *)
Definition to_int (z : Z) : Z := (z + 2 ^ 31) mod 2 ^ 32 - 2 ^ 31.

(** What a call returns: a value, or the [std::runtime_error] (or
    [std::out_of_range]) it throws, with the message. *)
Inductive result (A : Type) : Type :=
| Ok (a : A)
| Throw (what : string).
Arguments Ok {A} a.
Arguments Throw {A} what.

(* ===================================================================== *)
(** * The track source: [playlist.cpp] *)
(* ===================================================================== *)

Module Playlist.

(** One entry of [fs::directory_iterator]. *)
Record dir_entry : Type := DirEntry {
  entry_path : string;
  is_regular_file : bool
}.

(** Suffix of [s] behind the last occurrence of [c]. *)
Fixpoint after_last (c : ascii) (s : string) : option string :=
  match s with
  | EmptyString => None
  | String a r =>
      match after_last c r with
      | Some t => Some t
      | None => if Ascii.eqb a c then Some r else None
      end
  end.

(** [path::filename()]. *)
Definition filename (p : string) : string :=
  match after_last "/" p with
  | Some f => f
  | None => p
  end.

(** [path::extension()]: from the last period of the file name on; a
    period in first position does not start an extension, and the names
    [.] and [..] have none. *)
Definition extension (p : string) : string :=
  let f := filename p in
  if String.eqb f "." || String.eqb f ".." then EmptyString
  else match f with
       | EmptyString => EmptyString
       | String _ r =>
           match after_last "." r with
           | Some t => String "." t
           | None => EmptyString
           end
       end.

Record t : Type := Build {
  songs_ : list string;       (* full paths of the MP3 files *)
  shuffle_order_ : list Z;    (* vector<size_t>: order of song indices *)
  index_ : Z                  (* size_t: index into shuffle_order_ *)
}.

Definition size (pl : t) : Z := Z.of_nat (length (songs_ pl)).

Definition empty : t := Build [] [] 0.

(** The loop body of [load_songs]. *)
Definition load_entry (pl : t) (e : dir_entry) : t :=
  if is_regular_file e && String.eqb (extension (entry_path e)) ".mp3"
  then Build (songs_ pl ++ [entry_path e])
             (shuffle_order_ pl ++ [size pl])
             (index_ pl)
  else pl.

(** [std::ranges::sort(songs_, std::less{})]: the strings in
    lexicographic order. *)
Definition sort_songs (l : list string) : list string :=
  merge_sort String.le l.

Definition load_songs (entries : list dir_entry) (pl : t) : t :=
  let pl' := foldl load_entry pl entries in
  Build (sort_songs (songs_ pl')) (shuffle_order_ pl') (index_ pl').

(** The constructor. [listing] is what [fs::directory_iterator] yields
    for the folder, [None] when it cannot be opened (the iterator
    throws). *)
Definition ctor (folder_path : string) (listing : option (list dir_entry))
  : result t :=
  match listing with
  | None => Throw ("directory iterator cannot open directory: " +:+ folder_path)
  | Some entries =>
      let pl := load_songs entries empty in
      match songs_ pl with
      | [] => Throw ("No MP3 files found in folder: " +:+ folder_path)
      | _ :: _ => Ok pl
      end
  end.

(** [songs_.at(shuffle_order_[index_])]. [None] stands for the
    [std::out_of_range] of [at] and for an out-of-bounds [operator[]]. *)
Definition current (pl : t) : option string :=
  match shuffle_order_ pl !! Z.to_nat (index_ pl) with
  | Some i => if decide (0 <= i) then songs_ pl !! Z.to_nat i else None
  | None => None
  end.

Definition set_index (pl : t) (i : Z) : t :=
  Build (songs_ pl) (shuffle_order_ pl) i.

(** [index_ = (index_ + 1) % songs_.size(); return current();] *)
Definition next (pl : t) : option string * t :=
  let pl' := set_index pl (to_size_t (index_ pl + 1) mod size pl) in
  (current pl', pl').

(** [if (index_ == 0) index_ = songs_.size();
     index_ = (index_ - 1) % songs_.size(); return current();] *)
Definition prev (pl : t) : option string * t :=
  let i := if decide (index_ pl = 0) then size pl else index_ pl in
  let pl' := set_index pl (to_size_t (i - 1) mod size pl) in
  (current pl', pl').

Definition has_next (pl : t) : bool :=
  bool_decide (to_size_t (index_ pl + 1) < size pl).

Definition has_prev (pl : t) : bool :=
  bool_decide (index_ pl > 0).

(** ** [reshuffle] *)

(** [std::iter_swap(first + i, first + j)]. *)
Definition iter_swap (l : list Z) (i j : nat) : list Z :=
  match l !! i, l !! j with
  | Some x, Some y => <[j := x]> (<[i := y]> l)
  | _, _ => l
  end.

(** [std::shuffle(first, last, g)]: for [i = 1 .. n-1] the element at
    [i] is exchanged with the one at a position drawn in [0 .. i]. The
    generator ([std::mt19937] seeded from [std::random_device]) is the
    stream [g] of its raw outputs; a draw in [0 .. i] reduces the next
    output. *)
Fixpoint shuffle_from (i : nat) (steps : nat) (g : nat -> nat) (l : list Z)
  : list Z :=
  match steps with
  | O => l
  | S steps' =>
      shuffle_from (S i) steps' (fun k => g (S k))
                   (iter_swap l i (g O mod S i)%nat)
  end.

Definition shuffle (g : nat -> nat) (l : list Z) : list Z :=
  shuffle_from 1 (length l - 1)%nat g l.

(** [std::iota(first, last, 0)] over a vector of [n] elements. *)
Definition iota (n : nat) : list Z := Z.of_nat <$> seq 0 n.

(** [shuffle_order_.resize(songs_.size()); std::iota(..., 0);
     std::shuffle(..., std::mt19937{std::random_device{}()});
     index_ = 0;] *)
Definition reshuffle (g : nat -> nat) (pl : t) : t :=
  Build (songs_ pl) (shuffle g (iota (length (songs_ pl)))) 0.

(** ** Vocabulary of the statements *)

(** [next()] called [n] times. *)
Definition nexts (n : nat) (pl : t) : t :=
  Nat.iter n (fun q => snd (next q)) pl.

(** The cursor is on a position of a list that a [vector] can hold. *)
Definition cursor_ok (pl : t) : Prop :=
  size pl < SIZE_MOD /\ 0 <= index_ pl < size pl.

(** What the constructor leaves and the operations keep: at least one
    song, no empty path, the cursor on a position, and an order that
    lists every song index once. *)
Definition wf (pl : t) : Prop :=
  Forall (fun s => s <> EmptyString) (songs_ pl) /\ cursor_ok pl /\
  shuffle_order_ pl ≡ₚ iota (length (songs_ pl)).

End Playlist.

(* ===================================================================== *)
(** * IEEE binary32 ([float]) *)
(* ===================================================================== *)

Definition prec : Z := 24.
Definition emax : Z := 128.

Abbreviation float := spec_float.

Definition fadd : float -> float -> float := SFadd prec emax.
Definition fsub : float -> float -> float := SFsub prec emax.
Definition fdiv : float -> float -> float := SFdiv prec emax.
Definition fltb : float -> float -> bool := SFltb.
Definition fleb : float -> float -> bool := SFleb.

(** Conversion of an [int] constant to [float]. *)
Definition float_of_int (z : Z) : float := binary_normalize prec emax z 0 false.

Definition is_nan (x : float) : bool :=
  match x with S754_nan => true | _ => false end.

Definition is_finite (x : float) : bool :=
  match x with S754_zero _ | S754_finite _ _ _ => true | _ => false end.

(** The real number a finite [float] stands for: [(-1)^s * m * 2^e]. *)
Definition F2Q (x : float) : Q :=
  match x with
  | S754_finite s m e =>
      let q := match e with
               | Z0 => inject_Z (Zpos m)
               | Zpos k => inject_Z (Zpos m * 2 ^ Zpos k)
               | Zneg k => Zpos m # (2 ^ k)
               end in
      if s then Qopp q else q
  | _ => 0%Q
  end.

(** [clamp(v, lo, hi)] on the reals, as the specification words it. *)
Definition Qclamp (v lo hi : Q) : Q := Qmin (Qmax v lo) hi.

(** [std::clamp(v, lo, hi)]: [lo] if [v < lo], [hi] if [hi < v],
    otherwise [v]. *)
Definition std_clamp (v lo hi : float) : float :=
  if fltb v lo then lo else if fltb hi v then hi else v.

(** [std::clamp] on [int]. *)
Definition std_clamp_int (v lo hi : Z) : Z :=
  if decide (v < lo) then lo else if decide (hi < v) then hi else v.

(* ===================================================================== *)
(** * The playback core: [player.cpp] *)
(* ===================================================================== *)

Module Player.

Definition SDL_AUDIO_BUFFER_SIZE : Z := 8192.
Definition VOLUME_FULL : float := S754_finite false 8388608 (-23). (* 1.0F *)
Definition VOLUME_MUTE : float := S754_zero false.                 (* 0.0F *)
Definition DEFAULT_FADE_DURATION : Z := 300.

Inductive State : Type := STOPPED | PAUSE | PLAY | SWITCH_OFF.

#[global] Instance State_eq_dec : EqDecision State.
Proof. solve_decision. Defined.

(** How a call ends: it returns, it leaves with an exception, or the
    process is killed by a signal in the middle of it. *)
Inductive completion : Type :=
| Normal
| Thrown (what : string)
| Killed (signal : string).

(** ** The decoder (mpg123), as the core sees it *)

Inductive mpg123_ret : Type :=
| MPG123_OK | MPG123_DONE | MPG123_NEW_FORMAT | MPG123_NEED_MORE | MPG123_ERR.

#[global] Instance mpg123_ret_eq_dec : EqDecision mpg123_ret.
Proof. solve_decision. Defined.

(** [MPG123_ERR] where an [off_t] is returned. *)
Definition MPG123_ERR_off : Z := -1.

Record id3v1 : Type := Id3v1 { v1_title : string; v1_artist : string }.
Record id3v2 : Type := Id3v2 {
  v2_title : option string;      (* [None]: the pointer is null *)
  v2_artist : option string
}.

(** What mpg123 finds in a file. [mp3_stream off] is the sequence of
    results ([mpg123_read]'s return code and [completed_bytes]) that the
    reads deliver once the handle is positioned at sample [off]; it is
    [None] for an offset [mpg123_seek] rejects. *)
Record Mp3File : Type := Mp3 {
  mp3_rate : Z;
  mp3_channels : Z;
  mp3_length : Z;                (* [mpg123_length]: samples or MPG123_ERR *)
  mp3_has_id3 : bool;            (* [mpg123_meta_check & MPG123_ID3] *)
  mp3_id3v1 : option id3v1;
  mp3_id3v2 : option id3v2;
  mp3_stream : Z -> option (list (mpg123_ret * Z))
}.

Record Decoder : Type := Dec {
  dec_track : option Mp3File;              (* the open track *)
  dec_pending : list (mpg123_ret * Z)      (* what the next reads return *)
}.

Definition mpg123_new : Decoder := Dec None [].

Definition mpg123_close (d : Decoder) : Decoder := Dec None [].

(** [mpg123_open]: the track open before is closed first. *)
Definition mpg123_open (file : option Mp3File) (d : Decoder)
  : mpg123_ret * Decoder :=
  match file with
  | Some f => (MPG123_OK, Dec (Some f) (default [] (mp3_stream f 0)))
  | None => (MPG123_ERR, Dec None [])
  end.

(** [mpg123_getformat], into locals initialised to 0. *)
Definition mpg123_getformat (d : Decoder) : Z * Z :=
  match dec_track d with
  | Some f => (mp3_rate f, mp3_channels f)
  | None => (0, 0)
  end.

Definition mpg123_length (d : Decoder) : Z :=
  match dec_track d with
  | Some f => mp3_length f
  | None => MPG123_ERR_off
  end.

Definition mpg123_read (d : Decoder) : mpg123_ret * Z * Decoder :=
  match dec_track d, dec_pending d with
  | None, _ => (MPG123_ERR, 0, d)
  | Some _, [] => (MPG123_DONE, 0, d)
  | Some f, (ret, bytes) :: rest => (ret, bytes, Dec (Some f) rest)
  end.

(** [mpg123_seek(h, off, SEEK_SET)]: the offset reached, or
    [MPG123_ERR]. *)
Definition mpg123_seek (off : Z) (d : Decoder) : Z * Decoder :=
  match dec_track d with
  | None => (MPG123_ERR_off, d)
  | Some f =>
      match mp3_stream f off with
      | Some reads => (off, Dec (Some f) reads)
      | None => (MPG123_ERR_off, d)
      end
  end.

(** ** The output devices (SDL) *)

Record Device : Type := Dev {
  dev_paused : bool;
  dev_queued : Z            (* bytes queued and not yet played *)
}.

(** [SDL_OpenAudioDevice] returning [id]: 0 is the failure; a device
    starts paused with an empty queue. *)
Definition SDL_OpenAudioDevice (id : Z) (s : gmap Z Device) : gmap Z Device :=
  if decide (id = 0) then s else <[id := Dev true 0]> s.

Definition SDL_CloseAudioDevice (id : Z) (s : gmap Z Device) : gmap Z Device :=
  delete id s.

Definition SDL_PauseAudioDevice (id : Z) (pause_on : bool) (s : gmap Z Device)
  : gmap Z Device :=
  alter (fun d => Dev pause_on (dev_queued d)) id s.

Definition SDL_QueueAudio (id : Z) (len : Z) (s : gmap Z Device)
  : gmap Z Device :=
  alter (fun d => Dev (dev_paused d) (dev_queued d + len)) id s.

Definition SDL_ClearQueuedAudio (id : Z) (s : gmap Z Device) : gmap Z Device :=
  alter (fun d => Dev (dev_paused d) 0) id s.

Definition SDL_GetQueuedAudioSize (id : Z) (s : gmap Z Device) : Z :=
  match s !! id with
  | Some d => dev_queued d
  | None => 0
  end.

(** The device has played its queue down to [left] bytes. *)
Definition device_played (id : Z) (left : Z) (s : gmap Z Device)
  : gmap Z Device :=
  alter (fun d => Dev (dev_paused d) (Z.min (dev_queued d) left)) id s.

(** ** The object *)

Record t : Type := Build {
  volume_ : float;   (* std::atomic<float>: current volume *)
  last_volume_ : float;   (* std::atomic<float>: volume before pause *)
  elapsed_seconds_ : Z;   (* std::atomic<int>: playback progress *)
  state_ : State;   (* std::atomic<State> *)
  audio_device_ : option Z;   (* std::optional<SDL_AudioDeviceID> *)
  mpg_handler_ : Decoder;   (* the mpg123 handle *)
  sample_rate_ : Z;   (* int32_t *)
  title_ : string;
  artist_ : string;
  total_seconds_ : Z;   (* int: song duration in seconds *)
  start_time_ : Z;   (* steady_clock::time_point, ns since the epoch *)
  elapsed_duration_ : Z;   (* std::chrono::milliseconds: duration before last pause *)
  playlist_ : option Playlist.t;   (* std::unique_ptr<Playlist> *)
  clock : Z;   (* environment: what steady_clock::now() returns, ns *)
  sdl : gmap Z Device;   (* environment: the audio devices SDL has open *)
  cerr : list string   (* environment: lines written to std::cerr *)
}.

Definition set_volume_ (v : float) (p : t) : t :=
  Build v (last_volume_ p) (elapsed_seconds_ p) (state_ p) (audio_device_
    p) (mpg_handler_ p) (sample_rate_ p) (title_ p) (artist_ p)
    (total_seconds_ p) (start_time_ p) (elapsed_duration_ p) (playlist_ p)
    (clock p) (sdl p) (cerr p).

Definition set_last_volume_ (v : float) (p : t) : t :=
  Build (volume_ p) v (elapsed_seconds_ p) (state_ p) (audio_device_ p)
    (mpg_handler_ p) (sample_rate_ p) (title_ p) (artist_ p)
    (total_seconds_ p) (start_time_ p) (elapsed_duration_ p) (playlist_ p)
    (clock p) (sdl p) (cerr p).

Definition set_elapsed_seconds_ (v : Z) (p : t) : t :=
  Build (volume_ p) (last_volume_ p) v (state_ p) (audio_device_ p)
    (mpg_handler_ p) (sample_rate_ p) (title_ p) (artist_ p)
    (total_seconds_ p) (start_time_ p) (elapsed_duration_ p) (playlist_ p)
    (clock p) (sdl p) (cerr p).

Definition set_state_ (v : State) (p : t) : t :=
  Build (volume_ p) (last_volume_ p) (elapsed_seconds_ p) v (audio_device_
    p) (mpg_handler_ p) (sample_rate_ p) (title_ p) (artist_ p)
    (total_seconds_ p) (start_time_ p) (elapsed_duration_ p) (playlist_ p)
    (clock p) (sdl p) (cerr p).

Definition set_audio_device_ (v : option Z) (p : t) : t :=
  Build (volume_ p) (last_volume_ p) (elapsed_seconds_ p) (state_ p) v
    (mpg_handler_ p) (sample_rate_ p) (title_ p) (artist_ p)
    (total_seconds_ p) (start_time_ p) (elapsed_duration_ p) (playlist_ p)
    (clock p) (sdl p) (cerr p).

Definition set_mpg_handler_ (v : Decoder) (p : t) : t :=
  Build (volume_ p) (last_volume_ p) (elapsed_seconds_ p) (state_ p)
    (audio_device_ p) v (sample_rate_ p) (title_ p) (artist_ p)
    (total_seconds_ p) (start_time_ p) (elapsed_duration_ p) (playlist_ p)
    (clock p) (sdl p) (cerr p).

Definition set_sample_rate_ (v : Z) (p : t) : t :=
  Build (volume_ p) (last_volume_ p) (elapsed_seconds_ p) (state_ p)
    (audio_device_ p) (mpg_handler_ p) v (title_ p) (artist_ p)
    (total_seconds_ p) (start_time_ p) (elapsed_duration_ p) (playlist_ p)
    (clock p) (sdl p) (cerr p).

Definition set_title_ (v : string) (p : t) : t :=
  Build (volume_ p) (last_volume_ p) (elapsed_seconds_ p) (state_ p)
    (audio_device_ p) (mpg_handler_ p) (sample_rate_ p) v (artist_ p)
    (total_seconds_ p) (start_time_ p) (elapsed_duration_ p) (playlist_ p)
    (clock p) (sdl p) (cerr p).

Definition set_artist_ (v : string) (p : t) : t :=
  Build (volume_ p) (last_volume_ p) (elapsed_seconds_ p) (state_ p)
    (audio_device_ p) (mpg_handler_ p) (sample_rate_ p) (title_ p) v
    (total_seconds_ p) (start_time_ p) (elapsed_duration_ p) (playlist_ p)
    (clock p) (sdl p) (cerr p).

Definition set_total_seconds_ (v : Z) (p : t) : t :=
  Build (volume_ p) (last_volume_ p) (elapsed_seconds_ p) (state_ p)
    (audio_device_ p) (mpg_handler_ p) (sample_rate_ p) (title_ p)
    (artist_ p) v (start_time_ p) (elapsed_duration_ p) (playlist_ p)
    (clock p) (sdl p) (cerr p).

Definition set_start_time_ (v : Z) (p : t) : t :=
  Build (volume_ p) (last_volume_ p) (elapsed_seconds_ p) (state_ p)
    (audio_device_ p) (mpg_handler_ p) (sample_rate_ p) (title_ p)
    (artist_ p) (total_seconds_ p) v (elapsed_duration_ p) (playlist_ p)
    (clock p) (sdl p) (cerr p).

Definition set_elapsed_duration_ (v : Z) (p : t) : t :=
  Build (volume_ p) (last_volume_ p) (elapsed_seconds_ p) (state_ p)
    (audio_device_ p) (mpg_handler_ p) (sample_rate_ p) (title_ p)
    (artist_ p) (total_seconds_ p) (start_time_ p) v (playlist_ p) (clock
    p) (sdl p) (cerr p).

Definition set_playlist_ (v : option Playlist.t) (p : t) : t :=
  Build (volume_ p) (last_volume_ p) (elapsed_seconds_ p) (state_ p)
    (audio_device_ p) (mpg_handler_ p) (sample_rate_ p) (title_ p)
    (artist_ p) (total_seconds_ p) (start_time_ p) (elapsed_duration_ p) v
    (clock p) (sdl p) (cerr p).

Definition set_clock (v : Z) (p : t) : t :=
  Build (volume_ p) (last_volume_ p) (elapsed_seconds_ p) (state_ p)
    (audio_device_ p) (mpg_handler_ p) (sample_rate_ p) (title_ p)
    (artist_ p) (total_seconds_ p) (start_time_ p) (elapsed_duration_ p)
    (playlist_ p) v (sdl p) (cerr p).

Definition set_sdl (v : gmap Z Device) (p : t) : t :=
  Build (volume_ p) (last_volume_ p) (elapsed_seconds_ p) (state_ p)
    (audio_device_ p) (mpg_handler_ p) (sample_rate_ p) (title_ p)
    (artist_ p) (total_seconds_ p) (start_time_ p) (elapsed_duration_ p)
    (playlist_ p) (clock p) v (cerr p).

Definition set_cerr (v : list string) (p : t) : t :=
  Build (volume_ p) (last_volume_ p) (elapsed_seconds_ p) (state_ p)
    (audio_device_ p) (mpg_handler_ p) (sample_rate_ p) (title_ p)
    (artist_ p) (total_seconds_ p) (start_time_ p) (elapsed_duration_ p)
    (playlist_ p) (clock p) (sdl p) v.

(** [Player::Player()], at time [now], when SDL and mpg123 initialise
    (it throws otherwise and there is no player). [audio_device_{0}]
    holds the value 0; [start_time_] is the clock's epoch. *)
Definition ctor (now : Z) : t :=
  Build VOLUME_FULL VOLUME_FULL 0 STOPPED (Some 0) mpg123_new 0
        EmptyString EmptyString 0 0 0 None now ∅ [].

(** ** Time *)

Definition NS_PER_MS : Z := 1000000.
Definition NS_PER_S : Z := 1000000000.

Definition steady_clock_now (p : t) : Z := clock p.

(** [std::this_thread::sleep_for(milliseconds(ms))] and [SDL_Delay(ms)]:
    the caller goes on [ms] milliseconds later. *)
Definition sleep_for_ms (ms : Z) (p : t) : t :=
  set_clock (clock p + ms * NS_PER_MS) p.

(** ** Volume and fades *)

Definition get_volume (p : t) : float := volume_ p.

Definition set_volume (vol : float) (p : t) : t :=
  set_volume_ (std_clamp vol VOLUME_MUTE VOLUME_FULL) p.

Definition adjust_volume (delta : float) (p : t) : t :=
  set_volume (fadd (get_volume p) delta) p.

Definition N_STEPS : Z := 10.

(** The [for] loop of [fade_to], [n] steps left. *)
Fixpoint fade_loop (n : nat) (step : float) (duration_ms : Z) (p : t) : t :=
  match n with
  | O => p
  | S n' =>
      fade_loop n' step duration_ms
        (sleep_for_ms (duration_ms ÷ N_STEPS)
           (set_volume (fadd (get_volume p) step) p))
  end.

(** [fade_to(target, duration_ms)] run to its end: every caller in
    [player.cpp] waits on the future at once. *)
Definition fade_to (target : float) (duration_ms : Z) (p : t) : t :=
  let step := fdiv (fsub target (get_volume p)) (float_of_int N_STEPS) in
  set_volume target (fade_loop (Z.to_nat N_STEPS) step duration_ms p).

(** Time a fade of the default duration takes: ten sleeps. *)
Definition FADE_NS : Z := 10 * (DEFAULT_FADE_DURATION ÷ N_STEPS * NS_PER_MS).

(** ** The device handle *)

Definition pause_audio_device (p : t) : t :=
  match audio_device_ p with
  | Some id => set_sdl (SDL_PauseAudioDevice id true (sdl p)) p
  | None => p
  end.

Definition resume_audio_device (p : t) : t :=
  match audio_device_ p with
  | Some id => set_sdl (SDL_PauseAudioDevice id false (sdl p)) p
  | None => p
  end.

(** ** Transport *)

Definition pause (p : t) : t :=
  if decide (state_ p = SWITCH_OFF) then p
  else
    let now := steady_clock_now p in
    let p1 := set_elapsed_duration_
                (elapsed_duration_ p + (now - start_time_ p) ÷ NS_PER_MS) p in
    let p2 := if decide (state_ p1 <> PAUSE)
              then set_last_volume_ (get_volume p1) p1 else p1 in
    let p3 := fade_to VOLUME_MUTE DEFAULT_FADE_DURATION p2 in
    let p4 := pause_audio_device p3 in
    set_state_ PAUSE p4.

Definition resume (p : t) : t :=
  if decide (state_ p = SWITCH_OFF) then p
  else
    let p1 := set_start_time_ (steady_clock_now p) p in
    let p2 := resume_audio_device p1 in
    let p3 := fade_to (last_volume_ p2) DEFAULT_FADE_DURATION p2 in
    set_state_ PLAY p3.

(** The ID3 part of [load_song]: [mpg123_meta_check] and [mpg123_id3];
    the fields are written only when a tag is there. *)
Definition read_tags (d : Decoder) (p : t) : t :=
  match dec_track d with
  | None => p
  | Some f =>
      if mp3_has_id3 f then
        match mp3_id3v2 f, mp3_id3v1 f with
        | Some data2, _ =>
            set_artist_ (default EmptyString (v2_artist data2))
              (set_title_ (default EmptyString (v2_title data2)) p)
        | None, Some data1 =>
            set_artist_ (v1_artist data1) (set_title_ (v1_title data1) p)
        | None, None => p
        end
      else p
  end.

(** [load_song(path)]. [fs] is the file system as [mpg123_open] sees it
    and [dev] what [SDL_OpenAudioDevice] returns. The division is the
    one of C++, towards zero. [rate] is 0 when [mpg123_getformat] fails,
    whose return is not looked at: with a length to divide, the division
    is one by zero and the process is killed ([SIGFPE]) where it
    stands. *)
Definition load_song (fs : string -> option Mp3File) (dev : Z)
    (path : string) (p : t) : completion * t :=
  let p1 := pause_audio_device (set_state_ STOPPED p) in
  let '(ret, d) := mpg123_open (fs path) (mpg_handler_ p1) in
  let p2 := set_mpg_handler_ d p1 in
  if decide (ret <> MPG123_OK)
  then (Thrown ("Failed to open " +:+ path), p2)
  else
    let '(rate, channels) := mpg123_getformat d in
    let p3 := set_sample_rate_ (to_int rate) p2 in
    let total_samples := mpg123_length d in
    if decide (total_samples <> MPG123_ERR_off /\ rate = 0)
    then (Killed "SIGFPE", p3)
    else
      let p4 := if decide (total_samples <> MPG123_ERR_off)
                then set_total_seconds_ (to_int (total_samples ÷ rate)) p3
                else set_total_seconds_ 0 p3 in
      let p5 := set_elapsed_duration_ 0 (set_elapsed_seconds_ 0 p4) in
      let p6 := read_tags d p5 in
      let p7 := set_sdl (SDL_OpenAudioDevice dev (sdl p6))
                  (set_audio_device_ (Some dev) p6) in
      if decide (dev = 0)
      then (Thrown "SDL_OpenAudioDevice error: ", p7)
      else (Normal, pause_audio_device p7).

Definition load_current (fs : string -> option Mp3File) (dev : Z) (p : t)
  : completion * t :=
  match playlist_ p with
  | None => (Normal, p)
  | Some pl =>
      match Playlist.current pl with
      | Some path => load_song fs dev path p
      | None => (Thrown "vector::_M_range_check", p)
      end
  end.

Definition set_playlist (fs : string -> option Mp3File) (dev : Z)
    (playlist : option Playlist.t) (p : t) : completion * t :=
  load_current fs dev (set_playlist_ playlist p).

(** [pause(); load_song(playlist_->next()); resume();] and the same with
    [prev]. [move] is [Playlist.next] or [Playlist.prev]. *)
Definition change_song (move : Playlist.t -> option string * Playlist.t)
    (fs : string -> option Mp3File) (dev : Z) (p : t) : completion * t :=
  match playlist_ p with
  | None => (Normal, p)
  | Some pl =>
      let p1 := pause p in
      let '(path, pl') := move pl in
      let p2 := set_playlist_ (Some pl') p1 in
      match path with
      | None => (Thrown "vector::_M_range_check", p2)
      | Some path =>
          match load_song fs dev path p2 with
          | (Normal, p3) => (Normal, resume p3)
          | (Thrown what, p3) => (Thrown what, p3)
          | (Killed signal, p3) => (Killed signal, p3)
          end
      end
  end.

Definition next_song := change_song Playlist.next.
Definition prev_song := change_song Playlist.prev.

(** ** Progress *)

Definition update_elapsed_time (p : t) : t :=
  let now := steady_clock_now p in
  set_elapsed_seconds_
    (to_int ((elapsed_duration_ p * NS_PER_MS + (now - start_time_ p))
             ÷ NS_PER_S)) p.

Definition is_playing (p : t) : bool := bool_decide (state_ p = PLAY).

Definition get_progress (p : t) : Z * Z :=
  (elapsed_seconds_ p, total_seconds_ p).

(** ** Seeking *)

Definition NEWLINE : string := String (ascii_of_nat 10) EmptyString.

(** [const int current = elapsed_seconds_.load();
     const int target = std::clamp(current + delta_seconds, 0,
     total_seconds_);] The sum is one of two [int]s. Where it leaves the
    type, for a [delta_seconds] next to the ends of it, the language
    gives it no value; the program as built keeps its low 32 bits, which
    is what [to_int] does. *)
Definition seek_target (delta_seconds : Z) (p : t) : Z :=
  let current := elapsed_seconds_ p in
  std_clamp_int (to_int (current + delta_seconds)) 0 (total_seconds_ p).

(** [static_cast<off_t>(target * rate)], after [mpg123_getformat]. *)
Definition seek_offset (delta_seconds : Z) (p : t) : Z :=
  let '(rate, channels) := mpg123_getformat (mpg_handler_ p) in
  seek_target delta_seconds p * rate.

Definition seek_relative (delta_seconds : Z) (p : t) : t :=
  if decide (state_ p = SWITCH_OFF) then p
  else match audio_device_ p with
  | None => p
  | Some id =>
      let target := seek_target delta_seconds p in
      let sample_offset := seek_offset delta_seconds p in
      let '(reached, d) := mpg123_seek sample_offset (mpg_handler_ p) in
      if decide (reached = MPG123_ERR_off)
      then set_cerr (cerr p ++ ["[WARN] Seek failed" +:+ NEWLINE]) p
      else
        let p1 := set_mpg_handler_ d p in
        let p2 := set_sdl (SDL_ClearQueuedAudio id (sdl p1)) p1 in
        let p3 := set_elapsed_duration_ (target * 1000) p2 in
        let p4 := set_start_time_ (steady_clock_now p3) p3 in
        resume p4
  end.

(** ** The streaming loop *)

(** The two polls on the device backlog. Their exit depends on the
    device playing its queue; [polls] is how many more delays the loop
    makes, after the first, before SDL reports the backlog gone.

    [wait_until_buffer_has_space] leaves its loop when [state_] is not
    [PLAY] or when [buffer_ready] is set, and [buffer_ready] is set
    only with a value in the handle: with an empty handle and [state_]
    at [PLAY] it polls for as long as [state_] stays so. [None] is
    that: the call does not return. *)
Definition wait_until_buffer_has_space (delay_ms multiplier : Z) (polls : nat)
    (p : t) : option t :=
  if decide (state_ p = PLAY) then
    match audio_device_ p with
    | Some id =>
        let bound := SDL_AUDIO_BUFFER_SIZE * multiplier in
        if decide (SDL_GetQueuedAudioSize id (sdl p) <= bound) then Some p
        else
          let p1 := sleep_for_ms (Z.of_nat (S polls) * delay_ms) p in
          Some (set_sdl (device_played id bound (sdl p1)) p1)
    | None => None
    end
  else Some p.

Definition wait_for_buffer_to_drain (polls : nat) (p : t) : t :=
  let DELAY_MS := 50 in
  if decide (state_ p = PLAY) then
    match audio_device_ p with
    | None => p
    | Some id =>
        if decide (SDL_GetQueuedAudioSize id (sdl p) <= 0) then p
        else
          let p1 := sleep_for_ms (Z.of_nat (S polls) * DELAY_MS) p in
          set_sdl (device_played id 0 (sdl p1)) p1
    end
  else p.

(** One evaluation of the condition of the [while] of [stream_audio]
    and, when it holds, of its body. The flag tells whether the loop
    goes on; [None]: the body does not come to its end. [apply_volume]
    rewrites the samples of [buffer_], which are not part of the state
    kept here: a queue is its byte count. *)
Definition stream_audio_iter (polls : nat) (p : t) : option (bool * t) :=
  let DELAY_MS := 10 in
  let BUFFER_MULTIPLIER := 32 in
  if decide (state_ p = PLAY) then
    let '(ret, completed_bytes, d) := mpg123_read (mpg_handler_ p) in
    let p1 := set_mpg_handler_ d p in
    if decide (ret = MPG123_OK) then
      let p2 := update_elapsed_time p1 in
      match wait_until_buffer_has_space DELAY_MS BUFFER_MULTIPLIER polls p2 with
      | None => None
      | Some p3 =>
          let p4 := match audio_device_ p3 with
                    | Some id =>
                        set_sdl (SDL_QueueAudio id completed_bytes (sdl p3)) p3
                    | None => p3
                    end in
          Some (true, p4)
      end
    else Some (false, p1)
  else Some (false, p).

(** What the other threads see of a pass that does not come to its
    end: the read is made and the elapsed time stored, and the pass
    polls. *)
Definition stream_audio_polling (p : t) : t :=
  let '(ret, completed_bytes, d) := mpg123_read (mpg_handler_ p) in
  update_elapsed_time (set_mpg_handler_ d p).

(** The [while] itself; [None] when a pass does not come to its end or
    [fuel] passes do not reach the exit. [polls k] belongs to pass
    [k]. *)
Fixpoint stream_audio_loop (fuel : nat) (polls : nat -> nat) (p : t)
  : option t :=
  match fuel with
  | O => None
  | S fuel' =>
      match stream_audio_iter (polls O) p with
      | Some (true, p') => stream_audio_loop fuel' (fun k => polls (S k)) p'
      | Some (false, p') => Some p'
      | None => None
      end
  end.

(** [stream_audio()]: every pass that goes on takes one pending read,
    so one pass more than there are pending reads reaches the exit
    unless a pass polls without end. *)
Definition stream_audio (polls : nat -> nat) (p : t) : option t :=
  stream_audio_loop (S (length (dec_pending (mpg_handler_ p)))) polls p.

(** The end of a pass of [player_thread], behind the drain wait. *)
Definition end_of_track (fs : string -> option Mp3File) (dev : Z) (p : t)
  : completion * t :=
  if decide (state_ p = PLAY) then
    let p1 := set_mpg_handler_ (mpg123_close (mpg_handler_ p)) p in
    match playlist_ p1 with
    | Some _ => next_song fs dev p1
    | None => (Normal, set_state_ STOPPED p1)
    end
  else (Normal, p).


(** What the environment decides during one pass of [player_thread]. *)
Record ThreadEnv : Type := TEnv {
  space_polls : nat -> nat;
  drain_polls : nat;
  open_device : Z
}.

(** The body of the [while] of [player_thread]. [None]: the body does
    not reach its end. A [Thrown] completion leaves the thread function:
    nothing in [player_thread] or in the lambda given to [std::jthread]
    catches it. A [Killed] one ends the process with the thread. *)
Definition player_thread_body (fs : string -> option Mp3File)
    (env : ThreadEnv) (p : t) : option (completion * t) :=
  let SLEEP := 5 in
  let p0 := sleep_for_ms SLEEP p in
  if decide (state_ p0 <> PLAY) then Some (Normal, p0)
  else
    let p1 := resume_audio_device p0 in
    match stream_audio (space_polls env) p1 with
    | None => None
    | Some p2 =>
        let p3 := wait_for_buffer_to_drain (drain_polls env) p2 in
        Some (end_of_track fs (open_device env) p3)
    end.


(** [Player::~Player()]. *)
Definition dtor (p : t) : t :=
  let p1 := set_state_ SWITCH_OFF p in
  let p2 := match audio_device_ p1 with
            | Some id =>
                set_audio_device_ None
                  (set_sdl (SDL_CloseAudioDevice id (sdl p1)) p1)
            | None => p1
            end in
  set_mpg_handler_ (mpg123_close (mpg_handler_ p2)) p2.

(** ** Executions

    What can happen to a player, one atomic step at a time: a call of
    the command surface from some thread, a step of the background
    thread, or time passing. An exception thrown to a caller leaves the
    object as the call left it, and a pass of the streaming loop that
    polls without end leaves it as it polls. A call that kills the
    process leaves nothing to go on from: the runs looked at below are
    over files for which no call does ([files_ok]). *)
Inductive event : Type :=
| Tick (ns : Z)
| CallSetPlaylist (playlist : option Playlist.t) (dev : Z)
| CallLoadSong (path : string) (dev : Z)
| CallNextSong (dev : Z)
| CallPrevSong (dev : Z)
| CallPause
| CallResume
| CallSeekRelative (delta_seconds : Z)
| CallSetVolume (vol : float)
| CallAdjustVolume (delta : float)
| CallFadeTo (target : float)
| CallReshuffle (g : nat -> nat)
| ThreadWakes
| ThreadStreams (polls : nat)
| ThreadDrains (polls : nat)
| ThreadEndOfTrack (dev : Z)
| Destroy.

Definition step (fs : string -> option Mp3File) (p : t) (ev : event) : t :=
  match ev with
  | Tick ns => set_clock (clock p + ns) p
  | CallSetPlaylist pl dev => snd (set_playlist fs dev pl p)
  | CallLoadSong path dev => snd (load_song fs dev path p)
  | CallNextSong dev => snd (next_song fs dev p)
  | CallPrevSong dev => snd (prev_song fs dev p)
  | CallPause => pause p
  | CallResume => resume p
  | CallSeekRelative delta => seek_relative delta p
  | CallSetVolume vol => set_volume vol p
  | CallAdjustVolume delta => adjust_volume delta p
  | CallFadeTo target => fade_to target DEFAULT_FADE_DURATION p
  | CallReshuffle g =>
      set_playlist_ (Playlist.reshuffle g <$> playlist_ p) p
  | ThreadWakes =>
      let p0 := sleep_for_ms 5 p in
      if decide (state_ p0 <> PLAY) then p0 else resume_audio_device p0
  | ThreadStreams polls =>
      match stream_audio_iter polls p with
      | Some (_, p') => p'
      | None => stream_audio_polling p
      end
  | ThreadDrains polls => wait_for_buffer_to_drain polls p
  | ThreadEndOfTrack dev => snd (end_of_track fs dev p)
  | Destroy => dtor p
  end.

Definition run (fs : string -> option Mp3File) (evs : list event) (p : t) : t :=
  foldl (step fs) p evs.

(** The seconds [update_elapsed_time] is about to store fit an [int]. *)
Definition elapsed_fits_int (p : t) : bool :=
  bool_decide
    ((elapsed_duration_ p * NS_PER_MS + (clock p - start_time_ p)) ÷ NS_PER_S
     <= INT_MAX).

(** The steps a run is considered with: time does not go back, and the
    elapsed seconds stay within [int]. *)
Definition event_ok (p : t) (ev : event) : bool :=
  match ev with
  | Tick ns => bool_decide (0 <= ns)
  | ThreadStreams _ => elapsed_fits_int p
  | _ => true
  end.

Fixpoint run_ok (fs : string -> option Mp3File) (evs : list event) (p : t)
  : bool :=
  match evs with
  | [] => true
  | ev :: evs' => event_ok p ev && run_ok fs evs' (step fs p ev)
  end.

(** What mpg123 reports for the files it opens: a positive rate, and a
    length that is [MPG123_ERR] or a count of samples whose seconds fit
    an [int]. *)
Definition file_ok (f : Mp3File) : Prop :=
  0 < mp3_rate f /\
  (mp3_length f = MPG123_ERR_off \/
   0 <= mp3_length f /\ mp3_length f ÷ mp3_rate f <= INT_MAX).

Definition files_ok (fs : string -> option Mp3File) : Prop :=
  forall path f, fs path = Some f -> file_ok f.

(** What every step keeps: the two values of [get_progress] and the
    carried duration are not negative, and [start_time_] is not in the
    future. *)
Definition Inv (p : t) : Prop :=
  0 <= elapsed_seconds_ p /\ 0 <= total_seconds_ p /\
  0 <= elapsed_duration_ p /\ start_time_ p <= clock p.

End Player.

(* ===================================================================== *)
(** * Concrete tracks, playlists and runs *)
(* ===================================================================== *)

Module Sample.
Import Player.

(** The reads of [samples] samples of 16-bit stereo audio through the
    8192-byte buffer. *)
Definition frames (samples : Z) : list (mpg123_ret * Z) :=
  replicate (Z.to_nat (samples * 4 / SDL_AUDIO_BUFFER_SIZE)) (MPG123_OK, 8192).

(** Ten seconds at 44.1 kHz, seekable anywhere. *)
Definition song_a : Mp3File :=
  Mp3 44100 2 441000 false None None
      (fun off => if decide (0 <= off <= 441000)
                  then Some (frames (441000 - off)) else None).

(** A track of 600000 samples whose length mpg123 estimates as 441000
    (a variable bit rate without a length header). *)
Definition song_v : Mp3File :=
  Mp3 44100 2 441000 false None None
      (fun off => if decide (0 <= off <= 600000)
                  then Some (frames (600000 - off)) else None).

(** A stream that cannot be repositioned. *)
Definition song_n : Mp3File :=
  Mp3 44100 2 441000 false None None
      (fun off => if decide (off = 0) then Some (frames 441000) else None).

(** A track whose length mpg123 cannot tell. *)
Definition song_u : Mp3File :=
  Mp3 44100 2 MPG123_ERR_off false None None
      (fun off => if decide (off = 0) then Some (frames 441000) else None).

(** The files mpg123 can open; [music/b.mp3] is not among them. *)
Definition fs (path : string) : option Mp3File :=
  if String.eqb path "music/a.mp3" then Some song_a
  else if String.eqb path "music/v.mp3" then Some song_v
  else if String.eqb path "music/n.mp3" then Some song_n
  else if String.eqb path "music/u.mp3" then Some song_u
  else None.

Definition listing : list Playlist.dir_entry :=
  [Playlist.DirEntry "music/b.mp3" true;
   Playlist.DirEntry "music/notes.txt" true;
   Playlist.DirEntry "music/a.mp3" true;
   Playlist.DirEntry "music/c.mp3" true].

(** The playlist the constructor builds from [listing], and the same
    with the cursor on the second and on the last position. *)
Definition playlist : Playlist.t :=
  Playlist.Build ["music/a.mp3"; "music/b.mp3"; "music/c.mp3"] [0; 1; 2] 0.
Definition playlist_at_1 : Playlist.t := Playlist.set_index playlist 1.
Definition playlist_at_2 : Playlist.t := Playlist.set_index playlist 2.

(** A generator that always returns 5. *)
Definition always_5 (k : nat) : nat := 5%nat.

Definition half : float := S754_finite false 8388608 (-24).   (* 0.5F *)

(** A player that has loaded [path] on device 2 and has been resumed,
    all at time 0. *)
Definition playing (path : string) : Player.t :=
  resume (snd (load_song fs 2 path (ctor 0))).




Definition env : ThreadEnv := TEnv (fun _ => O) O 3.

(** The time one buffer of 8192 bytes plays. *)
Definition FRAME_NS : Z := 46439909.

(** [music/v.mp3] played for a little over eleven seconds, one buffer
    streamed every 46 ms. *)
Definition long_play : list event :=
  [CallLoadSong "music/v.mp3" 2; CallResume; ThreadWakes]
  ++ mjoin (replicate 240 [ThreadStreams 0; Tick FRAME_NS]).

(** [music/a.mp3] played for six seconds, paused, and [pause()] called
    once more ten seconds later, before playback is resumed. *)
Definition pause_twice : list event :=
  [CallLoadSong "music/a.mp3" 2; CallResume; ThreadWakes]
  ++ mjoin (replicate 130 [ThreadStreams 0; Tick FRAME_NS])
  ++ [CallPause; Tick 10000000000; CallPause; CallResume; ThreadWakes;
      ThreadStreams 0].

(** A short run with a seek in it. *)
Definition short_run : list event :=
  [CallLoadSong "music/a.mp3" 2; CallResume; ThreadWakes; ThreadStreams 0;
   Tick 2000000000; ThreadStreams 0; CallSeekRelative 5; ThreadStreams 0;
   CallPause].

End Sample.

(* ===================================================================== *)
(** * Proof automation *)
(* ===================================================================== *)

(** Projections of updated records. *)
Ltac fields :=
  cbn [
       Player.steady_clock_now Player.sleep_for_ms Player.get_volume
       Player.set_volume Player.set_volume_ Player.set_last_volume_
       Player.set_elapsed_seconds_ Player.set_state_
       Player.set_audio_device_ Player.set_mpg_handler_
       Player.set_sample_rate_ Player.set_title_ Player.set_artist_
       Player.set_total_seconds_ Player.set_start_time_
       Player.set_elapsed_duration_ Player.set_playlist_
       Player.set_clock Player.set_sdl Player.set_cerr Player.volume_
       Player.last_volume_ Player.elapsed_seconds_ Player.state_
       Player.audio_device_ Player.mpg_handler_ Player.sample_rate_
       Player.title_ Player.artist_ Player.total_seconds_
       Player.start_time_ Player.elapsed_duration_ Player.playlist_
       Player.clock Player.sdl Player.cerr fst snd] in *.

(** Updated records themselves, once the record is a constructor. *)
Ltac fields_eq :=
  cbv beta iota delta [
       Player.steady_clock_now Player.sleep_for_ms Player.get_volume
       Player.set_volume Player.set_volume_ Player.set_last_volume_
       Player.set_elapsed_seconds_ Player.set_state_
       Player.set_audio_device_ Player.set_mpg_handler_
       Player.set_sample_rate_ Player.set_title_ Player.set_artist_
       Player.set_total_seconds_ Player.set_start_time_
       Player.set_elapsed_duration_ Player.set_playlist_
       Player.set_clock Player.set_sdl Player.set_cerr Player.volume_
       Player.last_volume_ Player.elapsed_seconds_ Player.state_
       Player.audio_device_ Player.mpg_handler_ Player.sample_rate_
       Player.title_ Player.artist_ Player.total_seconds_
       Player.start_time_ Player.elapsed_duration_ Player.playlist_
       Player.clock Player.sdl Player.cerr fst snd].

(* ===================================================================== *)
(** * Properties of the machine integers *)
(* ===================================================================== *)

Lemma to_int_id z : INT_MIN <= z <= INT_MAX -> to_int z = z.
Proof.
  unfold to_int, INT_MIN, INT_MAX. intros H.
  rewrite Z.mod_small; lia.
Qed.

Lemma to_size_t_id z : 0 <= z < SIZE_MOD -> to_size_t z = z.
Proof. intros H. unfold to_size_t. now apply Z.mod_small. Qed.

(* ===================================================================== *)
(** * Properties of the track source *)
(* ===================================================================== *)

Section PlaylistFacts.
Import Playlist.

Lemma set_index_same pl : set_index pl (index_ pl) = pl.
Proof. now destruct pl. Qed.

Lemma size_set_index pl i : size (set_index pl i) = size pl.
Proof. reflexivity. Qed.

(** The cursor after [next()] and after [prev()], on a position. *)
Lemma next_index pl :
  cursor_ok pl -> index_ (snd (next pl)) = (index_ pl + 1) mod size pl.
Proof.
  intros [Hs Hi]. cbn. rewrite to_size_t_id; [done | lia].
Qed.

Lemma prev_index pl :
  cursor_ok pl -> index_ (snd (prev pl)) = (index_ pl - 1) mod size pl.
Proof.
  intros [Hs Hi]. cbn. case_decide as H0.
  - rewrite H0, to_size_t_id by lia.
    replace (0 - 1) with (size pl - 1 + (-1) * size pl) by lia.
    now rewrite Z.mod_add by lia.
  - rewrite to_size_t_id; [done | lia].
Qed.

Lemma next_cursor_ok pl : cursor_ok pl -> cursor_ok (snd (next pl)).
Proof.
  intros H. pose proof (next_index pl H) as E. destruct H as [Hs Hi].
  split; [exact Hs |]. rewrite E. change (size (snd (next pl))) with (size pl).
  apply Z.mod_pos_bound. lia.
Qed.

Lemma nexts_S n pl : nexts (S n) pl = snd (next (nexts n pl)).
Proof. reflexivity. Qed.

Lemma nexts_spec n pl :
  cursor_ok pl ->
  cursor_ok (nexts n pl) /\
  nexts n pl = set_index pl ((index_ pl + Z.of_nat n) mod size pl).
Proof.
  intros H. induction n as [| n [IHok IHeq]].
  - split; [exact H |]. cbn [nexts Nat.iter]. destruct H as [Hs Hi].
    rewrite Z.add_0_r, Z.mod_small by lia. now rewrite set_index_same.
  - rewrite nexts_S. split; [now apply next_cursor_ok |].
    pose proof (next_index _ IHok) as E.
    destruct (next (nexts n pl)) as [s q] eqn:Hn. cbn [snd] in *.
    assert (q = set_index (nexts n pl) (index_ q)) as ->.
    { unfold next in Hn. injection Hn as _ <-. reflexivity. }
    rewrite E, IHeq. cbn [set_index songs_ shuffle_order_ index_].
    unfold set_index, size. cbn [songs_ shuffle_order_ index_]. f_equal.
    destruct H as [Hs Hi]. fold (size pl).
    rewrite Z.add_mod_idemp_l by lia. f_equal. lia.
Qed.

(** C5 — Navigation is cyclic. On a playlist of N songs with the cursor
    on any position, N calls of [next()] bring the playlist back to
    where it was, the N-th call returning the track that was current;
    [prev()] undoes [next()] and [next()] undoes [prev()], each
    returning the original track; [prev()] at position 0 goes to
    position N-1 and [next()] at position N-1 goes to position 0. *)
Theorem next_prev_cyclic (pl : Playlist.t) :
  cursor_ok pl ->
  let N := length (songs_ pl) in
  nexts N pl = pl /\
  next (nexts (N - 1) pl) = (current pl, pl) /\
  prev (snd (next pl)) = (current pl, pl) /\
  next (snd (prev pl)) = (current pl, pl) /\
  (index_ pl = 0 -> index_ (snd (prev pl)) = size pl - 1) /\
  (index_ pl = size pl - 1 -> index_ (snd (next pl)) = 0).
Proof.
  intros H N. pose proof H as [Hs Hi].
  assert (HN : Z.of_nat N = size pl) by reflexivity.
  assert (Hcycle : nexts N pl = pl).
  { destruct (nexts_spec N pl H) as [_ ->].
    rewrite HN. replace (index_ pl + size pl) with (index_ pl + 1 * size pl) by lia.
    rewrite Z.mod_add, Z.mod_small by lia. apply set_index_same. }
  assert (Hback : forall q, cursor_ok q ->
            prev (snd (next q)) = (current q, q)).
  { intros q Hq. pose proof (next_cursor_ok q Hq) as Hq'.
    pose proof (prev_index _ Hq') as E. rewrite next_index in E by done.
    change (size (snd (next q))) with (size q) in E.
    destruct Hq as [Hqs Hqi].
    rewrite Zminus_mod_idemp_l in E.
    replace (index_ q + 1 - 1) with (index_ q) in E by lia.
    rewrite Z.mod_small in E by lia.
    unfold prev in *. cbn [snd] in *.
    set (i := to_size_t _ mod _) in *. cbn [index_ set_index] in E.
    rewrite E. change (set_index (snd (next q)) (index_ q)) with (set_index q (index_ q)).
    now rewrite set_index_same. }
  assert (Hforth : next (snd (prev pl)) = (current pl, pl)).
  { pose proof (prev_index pl H) as E.
    assert (Hp : cursor_ok (snd (prev pl))).
    { split; [exact Hs |]. rewrite E.
      change (size (snd (prev pl))) with (size pl).
      apply Z.mod_pos_bound. lia. }
    pose proof (next_index _ Hp) as E'. rewrite E in E'.
    change (size (snd (prev pl))) with (size pl) in E'.
    rewrite Z.add_mod_idemp_l in E' by lia.
    replace (index_ pl - 1 + 1) with (index_ pl) in E' by lia.
    rewrite Z.mod_small in E' by lia.
    unfold next in *. cbn [snd] in *.
    set (i := to_size_t _ mod _) in *. cbn [index_ set_index] in E'.
    rewrite E'. change (set_index (snd (prev pl)) (index_ pl)) with (set_index pl (index_ pl)).
    now rewrite set_index_same. }
  repeat split; try assumption.
  - destruct N as [| n]; [lia |].
    replace (S n - 1)%nat with n by lia.
    rewrite nexts_S in Hcycle.
    destruct (next (nexts n pl)) as [s q] eqn:Hn. cbn [snd] in Hcycle. subst q.
    f_equal. unfold next in Hn. injection Hn as <- Hq. now rewrite Hq.
  - now apply Hback.
  - intros H0. rewrite prev_index, H0 by done.
    replace (0 - 1) with (size pl - 1 + (-1) * size pl) by lia.
    rewrite Z.mod_add, Z.mod_small; lia.
  - intros HL. rewrite next_index, HL by done.
    replace (size pl - 1 + 1) with (0 + 1 * size pl) by lia.
    rewrite Z.mod_add, Z.mod_small; lia.
Qed.

(** C9 — Boundary queries. With the cursor on a position of a playlist
    of N songs, [has_next()] is false exactly at position N-1 and
    [has_prev()] is false exactly at position 0; both are functions of
    the playlist that return a flag only, so neither moves the
    cursor. *)
Theorem has_next_has_prev_boundaries (pl : Playlist.t) :
  cursor_ok pl ->
  (has_next pl = false <-> index_ pl = size pl - 1) /\
  (has_prev pl = false <-> index_ pl = 0).
Proof.
  intros [Hs Hi]. unfold has_next, has_prev.
  rewrite to_size_t_id by lia.
  rewrite !bool_decide_eq_false. lia.
Qed.

End PlaylistFacts.

Section ReshuffleFacts.
Import Playlist.

Lemma iter_swap_Permutation (l : list Z) i j : iter_swap l i j ≡ₚ l.
Proof.
  unfold iter_swap.
  destruct (l !! i) as [x |] eqn:Hi; [| done].
  destruct (l !! j) as [y |] eqn:Hj; [| done].
  now apply Permutation_insert_swap.
Qed.

Lemma shuffle_from_Permutation steps : forall i g (l : list Z),
  shuffle_from i steps g l ≡ₚ l.
Proof.
  induction steps as [| steps IH]; intros i g l; cbn [shuffle_from]; [done |].
  rewrite IH. apply iter_swap_Permutation.
Qed.

Lemma shuffle_Permutation g (l : list Z) : shuffle g l ≡ₚ l.
Proof. apply shuffle_from_Permutation. Qed.

Lemma elem_of_iota n (i : Z) : i ∈ iota n <-> 0 <= i < Z.of_nat n.
Proof.
  unfold iota. rewrite list_elem_of_fmap. split.
  - intros (k & -> & Hk). apply elem_of_seq in Hk. lia.
  - intros Hi. exists (Z.to_nat i). split; [lia |]. apply elem_of_seq. lia.
Qed.

Lemma NoDup_iota n : NoDup (iota n).
Proof. unfold iota. apply NoDup_fmap_2; [apply _ | apply NoDup_seq]. Qed.

Lemma iota_S n : iota (S n) = iota n ++ [Z.of_nat n].
Proof. unfold iota. now rewrite seq_S, fmap_app. Qed.

(** The loop of [load_songs] keeps the paths non-empty and the order
    the identity. *)
Lemma extension_nonempty p : extension p = ".mp3"%string -> p <> EmptyString.
Proof. intros H ->. discriminate H. Qed.

Lemma load_entries_spec entries : forall pl,
  Forall (fun s => s <> EmptyString) (songs_ pl) ->
  shuffle_order_ pl = iota (length (songs_ pl)) ->
  let pl' := foldl load_entry pl entries in
  Forall (fun s => s <> EmptyString) (songs_ pl') /\
  shuffle_order_ pl' = iota (length (songs_ pl')) /\
  index_ pl' = index_ pl /\
  (length (songs_ pl') <= length (songs_ pl) + length entries)%nat.
Proof.
  induction entries as [| e entries IH]; intros pl Hne Hord; cbn [foldl].
  - repeat split; [done.. | cbn; lia].
  - assert (Hstep : Forall (fun s => s <> EmptyString) (songs_ (load_entry pl e))
                    /\ shuffle_order_ (load_entry pl e)
                       = iota (length (songs_ (load_entry pl e)))
                    /\ index_ (load_entry pl e) = index_ pl
                    /\ (length (songs_ (load_entry pl e))
                        <= S (length (songs_ pl)))%nat).
    { unfold load_entry.
      destruct (is_regular_file e && _) eqn:Hc; cbn [songs_ shuffle_order_ index_].
      - apply andb_prop in Hc as [_ Hext]. apply String.eqb_eq in Hext.
        rewrite length_app. cbn [length].
        replace (length (songs_ pl) + 1)%nat with (S (length (songs_ pl))) by lia.
        repeat split; [| | lia].
        + apply Forall_app. split; [done |].
          constructor; [| constructor]. now apply extension_nonempty.
        + rewrite iota_S, Hord. reflexivity.
      - repeat split; [done.. | lia]. }
    destruct Hstep as (H1 & H2 & H3 & H4).
    destruct (IH _ H1 H2) as (G1 & G2 & G3 & G4).
    repeat split; [done | done | congruence | cbn [length]; lia].
Qed.

(** The constructor establishes [wf], with the identity as order and
    the cursor on the first position. *)
Lemma ctor_wf folder entries pl :
  Z.of_nat (length entries) < SIZE_MOD ->
  ctor folder (Some entries) = Ok pl ->
  wf pl /\ shuffle_order_ pl = iota (length (songs_ pl)) /\ index_ pl = 0.
Proof.
  intros Hlen. unfold ctor, load_songs.
  destruct (load_entries_spec entries empty) as (H1 & H2 & H3 & H4);
    [constructor | reflexivity |].
  set (pl' := foldl load_entry empty entries) in *. cbn [songs_].
  pose proof (merge_sort_Permutation String.le (songs_ pl')) as Hperm.
  fold (sort_songs (songs_ pl')) in Hperm.
  destruct (sort_songs (songs_ pl')) as [| s l] eqn:Hs; [discriminate |].
  intros [= <-]. cbn [songs_ shuffle_order_ index_ empty] in *.
  assert (Hl : length (s :: l) = length (songs_ pl')) by now rewrite Hperm.
  cbn [length Nat.add] in H4.
  repeat split; unfold size; cbn [songs_ index_ shuffle_order_];
    [ now rewrite Hperm | rewrite Hl; lia | rewrite H3; lia
    | rewrite H3; cbn [length]; lia | now rewrite H2, Hl
    | now rewrite Hl | exact H3 ].
Qed.


Lemma prev_wf pl : wf pl -> wf (snd (prev pl)).
Proof.
  intros (H1 & H2 & H3). split_and!; [exact H1 | | exact H3].
  pose proof (prev_index pl H2) as E. destruct H2 as [Hs Hi].
  split; [exact Hs |]. rewrite E. change (size (snd (prev pl))) with (size pl).
  apply Z.mod_pos_bound. lia.
Qed.

(** On such a playlist [current()] returns a path, and not an empty
    one. *)
Lemma current_defined pl :
  wf pl -> exists s, current pl = Some s /\ s <> EmptyString /\ s ∈ songs_ pl.
Proof.
  intros (Hne & [Hs Hi] & Hperm). unfold current.
  assert (Hlen : length (shuffle_order_ pl) = length (songs_ pl)).
  { rewrite Hperm. unfold iota. now rewrite length_fmap, length_seq. }
  destruct (lookup_lt_is_Some_2 (shuffle_order_ pl) (Z.to_nat (index_ pl)))
    as [k Hk]; [unfold size in *; lia |].
  rewrite Hk.
  assert (Hk' : 0 <= k < Z.of_nat (length (songs_ pl))).
  { apply elem_of_iota. rewrite <- Hperm. apply list_elem_of_lookup. eauto. }
  rewrite decide_True by lia.
  destruct (lookup_lt_is_Some_2 (songs_ pl) (Z.to_nat k)) as [s Hsk]; [lia |].
  exists s. split_and!; [done | |].
  - eapply Forall_lookup_1 in Hne; [exact Hne | exact Hsk].
  - apply list_elem_of_lookup. eauto.
Qed.

Lemma reshuffle_wf g pl : wf pl -> wf (reshuffle g pl).
Proof.
  intros (H1 & [Hs Hi] & _). split_and!; [exact H1 | | apply shuffle_Permutation].
  split; [exact Hs |]. change (size (reshuffle g pl)) with (size pl).
  cbn [reshuffle index_]. lia.
Qed.

(** C8 — [reshuffle()]. For a playlist as the constructor and the
    operations leave it (at least one song, no empty path) and any
    outputs [g] of the random generator: the cursor is at position 0,
    [current()] returns a non-empty path of the playlist, and the new
    order is a permutation of the N song indices [0 .. N-1]: it has N
    entries, none twice, and every index in it. *)
Theorem reshuffle_valid (g : nat -> nat) (pl : Playlist.t) :
  wf pl ->
  let pl' := reshuffle g pl in
  let N := length (songs_ pl) in
  index_ pl' = 0 /\
  (exists s, current pl' = Some s /\ s <> EmptyString /\ s ∈ songs_ pl) /\
  shuffle_order_ pl' ≡ₚ iota N /\
  length (shuffle_order_ pl') = N /\
  NoDup (shuffle_order_ pl') /\
  (forall i, i ∈ shuffle_order_ pl' <-> 0 <= i < Z.of_nat N).
Proof.
  intros Hwf pl' N.
  assert (Hperm : shuffle_order_ pl' ≡ₚ iota N) by apply shuffle_Permutation.
  split_and!.
  - reflexivity.
  - apply (current_defined pl'). now apply reshuffle_wf.
  - exact Hperm.
  - rewrite Hperm. unfold iota. now rewrite length_fmap, length_seq.
  - rewrite Hperm. apply NoDup_iota.
  - intros i. rewrite Hperm. apply elem_of_iota.
Qed.

End ReshuffleFacts.

(* ===================================================================== *)
(** * Properties of the volume *)
(* ===================================================================== *)

Section VolumeFacts.
Import Player.

Lemma digits2_pos_bounds (m : positive) :
  2 ^ (Zpos (digits2_pos m) - 1) <= Zpos m < 2 ^ Zpos (digits2_pos m).
Proof.
  induction m as [m IH | m IH |]; cbn [digits2_pos].
  - rewrite Pos2Z.inj_succ.
    replace (Z.succ (Zpos (digits2_pos m)) - 1) with (Z.succ (Zpos (digits2_pos m) - 1)) by lia.
    rewrite !Z.pow_succ_r by lia. lia.
  - rewrite Pos2Z.inj_succ.
    replace (Z.succ (Zpos (digits2_pos m)) - 1) with (Z.succ (Zpos (digits2_pos m) - 1)) by lia.
    rewrite !Z.pow_succ_r by lia. lia.
  - cbn. lia.
Qed.

(** A binary32 mantissa has at most 24 digits, and exactly 24 above the
    smallest exponent. *)
Lemma bounded_digits m e :
  bounded prec emax m e = true ->
  Zpos m < 2 ^ 24 /\ (-149 < e -> 2 ^ 23 <= Zpos m).
Proof.
  unfold bounded, canonical_mantissa, fexp, SpecFloat.emin, prec, emax.
  intros H. apply andb_prop in H as [H _]. apply Z.eqb_eq in H.
  pose proof (digits2_pos_bounds m) as [Hlo Hhi].
  assert (Hd : Zpos (digits2_pos m) <= 24) by lia.
  split.
  - eapply Z.lt_le_trans; [exact Hhi |]. apply Z.pow_le_mono_r; lia.
  - intros He. assert (Zpos (digits2_pos m) = 24) as Hd' by lia.
    rewrite Hd' in Hlo. exact Hlo.
Qed.


(** The IEEE comparison read from the other side. *)
Lemma SFcompare_antisym (a b : float) :
  SFcompare b a = CompOpp <$> SFcompare a b.
Proof.
  destruct a as [s1 | s1 | | s1 m1 e1], b as [s2 | s2 | | s2 m2 e2];
    try reflexivity; try (destruct s1; reflexivity);
    try (destruct s2; reflexivity); try (destruct s1, s2; reflexivity).
  cbn [SFcompare fmap option_fmap option_map].
  rewrite (Z.compare_antisym e1 e2).
  destruct s1, s2; try reflexivity; f_equal;
    destruct (e1 ?= e2); cbn [CompOpp]; try reflexivity;
    rewrite (Pos.compare_cont_antisym m1 m2 Eq); reflexivity.
Qed.

Lemma fltb_false_fleb (a b : float) :
  is_nan a = false -> is_nan b = false -> fltb a b = false -> fleb b a = true.
Proof.
  intros Ha Hb. unfold fltb, fleb, SFltb, SFleb.
  rewrite (SFcompare_antisym a b).
  destruct (SFcompare a b) as [[| |] |] eqn:Hc; cbn; try done.
  destruct a, b; try discriminate; cbn in Hc;
    repeat match type of Hc with context [if ?s then _ else _] => destruct s end;
    discriminate.
Qed.

Lemma std_clamp_range v :
  is_nan v = false ->
  fleb VOLUME_MUTE (std_clamp v VOLUME_MUTE VOLUME_FULL) = true /\
  fleb (std_clamp v VOLUME_MUTE VOLUME_FULL) VOLUME_FULL = true.
Proof.
  intros Hnan. unfold std_clamp.
  destruct (fltb v VOLUME_MUTE) eqn:H1; [split; reflexivity |].
  destruct (fltb VOLUME_FULL v) eqn:H2; [split; reflexivity |].
  split; apply fltb_false_fleb; done.
Qed.

(** [std::clamp] agrees with the clamp of the reals on the finite
    binary32 values. *)
Lemma std_clamp_real v :
  valid_binary prec emax v = true -> is_finite v = true ->
  (F2Q (std_clamp v VOLUME_MUTE VOLUME_FULL) == Qclamp (F2Q v) 0 1)%Q.
Proof.
  intros Hv Hf. unfold Qclamp.
  destruct v as [s | s | | s m e]; try discriminate.
  - destruct s; cbn; reflexivity.
  - cbn [valid_binary] in Hv. apply bounded_digits in Hv as [Hhi Hlo].
    assert (Hq : (0 < match e with
                      | Z0 => inject_Z (Zpos m)
                      | Zpos k => inject_Z (Zpos m * 2 ^ Zpos k)
                      | Zneg k => Zpos m # (2 ^ k)
                      end)%Q).
    { destruct e; unfold Qlt; cbn; lia. }
    destruct s.
    + (* negative: below the lower bound *)
      change (std_clamp (S754_finite true m e) VOLUME_MUTE VOLUME_FULL)
        with VOLUME_MUTE.
      cbn [F2Q VOLUME_MUTE]. set (q := match e with Z0 => _ | _ => _ end) in *.
      rewrite Q.max_r by (apply Qlt_le_weak; rewrite <- (Qopp_involutive 0);
                          apply Qopp_lt_compat; exact Hq).
      rewrite Q.min_l; [reflexivity | discriminate].
    + unfold std_clamp, fltb, SFltb, VOLUME_MUTE, VOLUME_FULL. cbn [SFcompare].
      destruct (-23 ?= e) eqn:He.
      * apply Z.compare_eq in He. subst e.
        destruct (Pos.compare_cont Eq 8388608 m) eqn:Hm.
        -- apply Pos.compare_eq in Hm. subst m. reflexivity.
        -- change (8388608 < m)%positive in Hm. apply Pos2Z.pos_lt_pos in Hm.
           rewrite Q.max_l by (apply Qlt_le_weak; exact Hq).
           rewrite Q.min_r; [reflexivity |].
           unfold Qle. cbn [F2Q Qnum Qden].
           change (Z.pos (2 ^ 23)) with 8388608. clear Hlo Hhi Hq. lia.
        -- apply Pos.compare_gt_iff in Hm. change (m < 8388608)%positive in Hm.
           apply Pos2Z.pos_lt_pos in Hm.
           rewrite Q.max_l by (apply Qlt_le_weak; exact Hq).
           rewrite Q.min_l; [reflexivity |].
           unfold Qle. cbn [F2Q Qnum Qden].
           change (Z.pos (2 ^ 23)) with 8388608. clear Hlo Hhi Hq. lia.
      * change (-23 < e) in He.
        rewrite Q.max_l by (apply Qlt_le_weak; exact Hq).
        rewrite Q.min_r; [reflexivity |].
        specialize (Hlo ltac:(lia)). cbn [F2Q].
        destruct e as [| k | k]; unfold Qle; cbn; [lia | nia |].
        assert (Zpos (2 ^ k) <= 2 ^ 22).
        { rewrite Pos2Z.inj_pow. apply Z.pow_le_mono_r; lia. }
        lia.
      * apply Z.compare_gt_iff in He. change (e < -23) in He.
        rewrite Q.max_l by (apply Qlt_le_weak; exact Hq).
        rewrite Q.min_l; [reflexivity |]. cbn [F2Q].
        destruct e as [| k | k]; [lia | lia |]. unfold Qle. cbn.
        assert (2 ^ 24 <= Zpos (2 ^ k)).
        { rewrite Pos2Z.inj_pow. apply Z.pow_le_mono_r; lia. }
        lia.
Qed.

(** C6 — [set_volume(v)] stores [clamp(v, 0, 1)]. For every [float] [v]
    that is a number (not a NaN) the stored volume is 0 when [v < 0],
    1 when [1 < v] and [v] itself otherwise; it satisfies
    [0 <= volume <= 1]; and on finite values it is, as a real number,
    the clamp of the real number [v] to [0, 1]. *)
Theorem set_volume_clamps (v : float) (p : Player.t) :
  is_nan v = false ->
  let stored := get_volume (set_volume v p) in
  stored = (if fltb v VOLUME_MUTE then VOLUME_MUTE
            else if fltb VOLUME_FULL v then VOLUME_FULL else v) /\
  fleb VOLUME_MUTE stored = true /\ fleb stored VOLUME_FULL = true /\
  (valid_binary prec emax v = true -> is_finite v = true ->
   (F2Q stored == Qclamp (F2Q v) 0 1)%Q).
Proof.
  intros Hnan stored.
  assert (Hs : stored = std_clamp v VOLUME_MUTE VOLUME_FULL) by reflexivity.
  rewrite Hs. destruct (std_clamp_range v Hnan) as [H0 H1].
  split_and!; [reflexivity | exact H0 | exact H1 | apply std_clamp_real].
Qed.


End VolumeFacts.

(* ===================================================================== *)
(** * Properties of the playback core *)
(* ===================================================================== *)

Section PlayerFacts.
Import Player.

(** ** Fades, [pause] and [resume] in closed form *)

Lemma fade_loop_frame n step d : forall p,
  exists v, fade_loop n step d p
            = set_clock (clock p + Z.of_nat n * (d ÷ N_STEPS * NS_PER_MS))
                        (set_volume_ v p).
Proof.
  induction n as [| n IH]; intros p.
  - exists (volume_ p). cbn [fade_loop]. destruct p. fields_eq. f_equal.
    change (Z.of_nat 0) with 0. ring.
  - cbn [fade_loop]. destruct (IH (sleep_for_ms (d ÷ N_STEPS)
                                    (set_volume (fadd (get_volume p) step) p)))
      as [v ->].
    exists v. destruct p. fields_eq. f_equal.
    rewrite Nat2Z.inj_succ. ring.
Qed.

Lemma fade_to_closed target p :
  fade_to target DEFAULT_FADE_DURATION p
  = set_clock (clock p + FADE_NS)
      (set_volume_ (std_clamp target VOLUME_MUTE VOLUME_FULL) p).
Proof.
  unfold fade_to.
  destruct (fade_loop_frame (Z.to_nat N_STEPS)
              (fdiv (fsub target (get_volume p)) (float_of_int N_STEPS))
              DEFAULT_FADE_DURATION p) as [v ->].
  destruct p. reflexivity.
Qed.

Lemma resume_closed p :
  state_ p <> SWITCH_OFF ->
  resume p
  = set_state_ PLAY
      (set_clock (clock p + FADE_NS)
         (set_volume_ (std_clamp (last_volume_ p) VOLUME_MUTE VOLUME_FULL)
            (resume_audio_device (set_start_time_ (clock p) p)))).
Proof.
  intros H. unfold resume. rewrite decide_False by done.
  rewrite fade_to_closed.
  destruct p as [? ? ? ? [id |] ? ? ? ? ? ? ? ? ? ? ?]; reflexivity.
Qed.

Lemma pause_closed p :
  state_ p <> SWITCH_OFF ->
  pause p
  = set_state_ PAUSE
      (pause_audio_device
         (set_clock (clock p + FADE_NS)
            (set_volume_ (std_clamp VOLUME_MUTE VOLUME_MUTE VOLUME_FULL)
               (set_last_volume_
                  (if decide (state_ p <> PAUSE) then volume_ p
                   else last_volume_ p)
                  (set_elapsed_duration_
                     (elapsed_duration_ p
                      + (clock p - start_time_ p) ÷ NS_PER_MS) p))))).
Proof.
  intros H. unfold pause. rewrite decide_False by done.
  cbv zeta. rewrite fade_to_closed.
  destruct p as [? ? ? st [id |] ? ? ? ? ? ? ? ? ? ? ?]; cbn;
    destruct (decide (st <> PAUSE)); reflexivity.
Qed.

(** ** Seeking *)

Lemma std_clamp_int_range v lo hi :
  lo <= hi -> lo <= std_clamp_int v lo hi <= hi.
Proof. intros H. unfold std_clamp_int. repeat case_decide; lia. Qed.

(** [std::clamp] on [int], with the bounds in order, is the sum capped
    from both sides. *)
Lemma std_clamp_int_min_max v lo hi :
  lo <= hi -> std_clamp_int v lo hi = Z.max lo (Z.min v hi).
Proof. intros H. unfold std_clamp_int. repeat case_decide; lia. Qed.

(** C3 — [seek_relative(delta)] while playing. For every elapsed
    position and every [delta], with the device handle holding a value,
    a non-negative total and a decoder that accepts the offset: the
    target lies in [0, total] and is the sum of the elapsed seconds and
    [delta] capped to that interval, 0 for a sum below 0, the total for
    a sum above it and the sum itself in between, where the sum is the
    one the [int] addition gives, which is [elapsed + delta] whenever
    that is an [int]; the decoder is positioned by [mpg123_seek] at
    sample [target * rate]; the queue of the device is cleared; the
    carried duration is exactly [target] seconds; [start_time_] is the
    time of the call; and the player is left playing with the device
    running. *)
Theorem seek_relative_playing (delta : Z) (p : Player.t) (id : Z) :
  state_ p = PLAY ->
  audio_device_ p = Some id ->
  0 <= total_seconds_ p ->
  fst (mpg123_seek (seek_offset delta p) (mpg_handler_ p)) <> MPG123_ERR_off ->
  let sum := to_int (elapsed_seconds_ p + delta) in
  let target := seek_target delta p in
  let p' := seek_relative delta p in
  (INT_MIN <= elapsed_seconds_ p + delta <= INT_MAX ->
   sum = elapsed_seconds_ p + delta /\
   target = Z.max 0 (Z.min (elapsed_seconds_ p + delta) (total_seconds_ p))) /\
  target = Z.max 0 (Z.min sum (total_seconds_ p)) /\
  (sum < 0 -> target = 0) /\
  (total_seconds_ p < sum -> target = total_seconds_ p) /\
  (0 <= sum <= total_seconds_ p -> target = sum) /\
  0 <= target <= total_seconds_ p /\
  seek_offset delta p = target * fst (mpg123_getformat (mpg_handler_ p)) /\
  mpg_handler_ p' = snd (mpg123_seek (seek_offset delta p) (mpg_handler_ p)) /\
  SDL_GetQueuedAudioSize id (sdl p') = 0 /\
  sdl p' !! id = (fun _ => Dev false 0) <$> (sdl p !! id) /\
  elapsed_duration_ p' = target * 1000 /\
  start_time_ p' = steady_clock_now p /\
  state_ p' = PLAY.
Proof.
  intros Hst Hdev Htot Hacc sum target p'.
  assert (Hp' : p' = resume
            (set_start_time_ (clock p)
               (set_elapsed_duration_ (target * 1000)
                  (set_sdl (SDL_ClearQueuedAudio id (sdl p))
                     (set_mpg_handler_
                        (snd (mpg123_seek (seek_offset delta p) (mpg_handler_ p)))
                        p))))).
  { unfold p', seek_relative. rewrite decide_False by congruence. rewrite Hdev.
    destruct (mpg123_seek (seek_offset delta p) (mpg_handler_ p)) as [r d].
    cbn [fst snd] in *. rewrite decide_False by done. reflexivity. }
  assert (Hlk : SDL_PauseAudioDevice id false (SDL_ClearQueuedAudio id (sdl p)) !! id
                = (fun _ => Dev false 0) <$> (sdl p !! id)).
  { unfold SDL_PauseAudioDevice, SDL_ClearQueuedAudio.
    rewrite !lookup_alter_eq. now destruct (sdl p !! id). }
  assert (Hcap : target = Z.max 0 (Z.min sum (total_seconds_ p)))
    by (apply std_clamp_int_min_max; exact Htot).
  assert (Hsum : INT_MIN <= elapsed_seconds_ p + delta <= INT_MAX ->
                 sum = elapsed_seconds_ p + delta)
    by (intros H; apply to_int_id; exact H).
  assert (Hoff : seek_offset delta p
                 = target * fst (mpg123_getformat (mpg_handler_ p))).
  { unfold seek_offset. now destruct (mpg123_getformat (mpg_handler_ p)). }
  rewrite Hp', resume_closed by (fields; congruence).
  unfold resume_audio_device. fields. rewrite Hdev. fields.
  unfold SDL_GetQueuedAudioSize. rewrite Hlk.
  split_and!; try done; try lia.
  now destruct (sdl p !! id).
Qed.

(** The addition of [seek_relative] at the end of [int]: two seconds
    into a track of ten, a [delta] of [INT_MAX] gives a sum that is
    [INT_MIN + 1] as built, and the target is the start of the track. *)
Lemma seek_target_wraps (p : Player.t) :
  elapsed_seconds_ p = 2 -> total_seconds_ p = 10 ->
  seek_target INT_MAX p = 0 /\ seek_target (INT_MAX - 2) p = 10.
Proof.
  intros He Ht. unfold seek_target. rewrite He, Ht. split; reflexivity.
Qed.

(** C4 — A rejected seek. When [seek_relative] gets as far as the
    decoder ([state_] is not [SWITCH_OFF], the device handle holds a
    value) and [mpg123_seek] returns [MPG123_ERR], the player is left
    as it was but for one line on [std::cerr]: the carried duration,
    [start_time_], the elapsed seconds, the decoder and the devices
    with their queues are those of before. *)
Theorem seek_relative_rejected (delta : Z) (p : Player.t) (id : Z) :
  state_ p <> SWITCH_OFF ->
  audio_device_ p = Some id ->
  fst (mpg123_seek (seek_offset delta p) (mpg_handler_ p)) = MPG123_ERR_off ->
  let p' := seek_relative delta p in
  p' = set_cerr (cerr p ++ ["[WARN] Seek failed" +:+ NEWLINE]) p /\
  elapsed_duration_ p' = elapsed_duration_ p /\
  start_time_ p' = start_time_ p /\
  elapsed_seconds_ p' = elapsed_seconds_ p /\
  mpg_handler_ p' = mpg_handler_ p /\
  sdl p' = sdl p /\
  state_ p' = state_ p.
Proof.
  intros Hst Hdev Hrej p'.
  assert (Hp' : p' = set_cerr (cerr p ++ ["[WARN] Seek failed" +:+ NEWLINE]) p).
  { unfold p', seek_relative. rewrite decide_False by done. rewrite Hdev.
    destruct (mpg123_seek (seek_offset delta p) (mpg_handler_ p)) as [r d].
    cbn [fst] in Hrej. rewrite decide_True by done. reflexivity. }
  rewrite Hp'. split_and!; reflexivity.
Qed.

Lemma load_song_unknown_length fs dev path f p :
  fs path = Some f -> mp3_length f = MPG123_ERR_off ->
  total_seconds_ (snd (load_song fs dev path p)) = 0.
Proof.
  intros Hf Hlen. unfold load_song. rewrite Hf.
  cbn [mpg123_open dec_track]. cbv zeta.
  destruct (decide (MPG123_OK <> MPG123_OK)) as [E | _]; [done |].
  unfold mpg123_getformat, mpg123_length. cbn [dec_track].
  rewrite Hlen.
  destruct (decide (MPG123_ERR_off <> MPG123_ERR_off)) as [E | _]; [done |].
  unfold read_tags, pause_audio_device. cbn [dec_track].
  destruct (decide (dev = 0)); cbn [snd];
    destruct (mp3_has_id3 f), (mp3_id3v2 f), (mp3_id3v1 f); fields;
    reflexivity.
Qed.

(** C10 — Seeking in a track of unknown length. With a stored total of
    0 (what [load_song] stores when [mpg123_length] reports an error)
    every [delta], positive or negative, gives the target 0 and the
    sample offset 0; a seek the decoder accepts then positions it at
    the start of the track and sets the carried duration to 0. *)
Theorem seek_relative_unknown_duration (delta : Z) (p : Player.t) :
  total_seconds_ p = 0 ->
  seek_target delta p = 0 /\
  seek_offset delta p = 0 /\
  (forall id,
     state_ p <> SWITCH_OFF -> audio_device_ p = Some id ->
     fst (mpg123_seek 0 (mpg_handler_ p)) <> MPG123_ERR_off ->
     elapsed_duration_ (seek_relative delta p) = 0 /\
     mpg_handler_ (seek_relative delta p)
     = snd (mpg123_seek 0 (mpg_handler_ p))).
Proof.
  intros Htot.
  assert (Ht : seek_target delta p = 0).
  { unfold seek_target, std_clamp_int. rewrite Htot. repeat case_decide; lia. }
  assert (Ho : seek_offset delta p = 0).
  { unfold seek_offset. destruct (mpg123_getformat (mpg_handler_ p)).
    rewrite Ht. lia. }
  split_and!; [exact Ht | exact Ho |].
  intros id Hst Hdev Hacc.
  unfold seek_relative. rewrite decide_False by done. rewrite Hdev, Ho, Ht.
  destruct (mpg123_seek 0 (mpg_handler_ p)) as [r d]. cbn [fst snd] in *.
  rewrite decide_False by done. rewrite resume_closed by (fields; congruence).
  unfold resume_audio_device. fields. rewrite Hdev. fields.
  split; reflexivity.
Qed.

(** ** The time invariant *)

Lemma FADE_NS_pos : 0 < FADE_NS.
Proof. reflexivity. Qed.

Lemma to_int_nonneg z : 0 <= z <= INT_MAX -> 0 <= to_int z.
Proof. intros H. rewrite to_int_id; unfold INT_MIN, INT_MAX in *; lia. Qed.

Lemma quot_nonneg a b : 0 <= a -> 0 < b -> 0 <= a ÷ b.
Proof. intros. apply Z.quot_pos; lia. Qed.

Lemma inv_pause_audio_device p : Inv p -> Inv (pause_audio_device p).
Proof. unfold pause_audio_device. now destruct (audio_device_ p). Qed.

Lemma inv_resume_audio_device p : Inv p -> Inv (resume_audio_device p).
Proof. unfold resume_audio_device. now destruct (audio_device_ p). Qed.

Lemma inv_fade_to target p :
  Inv p -> Inv (fade_to target DEFAULT_FADE_DURATION p).
Proof.
  rewrite fade_to_closed. pose proof FADE_NS_pos.
  unfold Inv. fields. lia.
Qed.

Lemma inv_pause p : Inv p -> Inv (pause p).
Proof.
  intros H. destruct (decide (state_ p = SWITCH_OFF)) as [E | E].
  - unfold pause. now rewrite decide_True.
  - rewrite pause_closed by done. pose proof FADE_NS_pos.
    unfold Inv, pause_audio_device in *. fields.
    assert (0 <= (clock p - start_time_ p) ÷ NS_PER_MS)
      by (apply quot_nonneg; [lia | reflexivity]).
    destruct (audio_device_ p); fields; lia.
Qed.

Lemma inv_resume p : Inv p -> Inv (resume p).
Proof.
  intros H. destruct (decide (state_ p = SWITCH_OFF)) as [E | E].
  - unfold resume. now rewrite decide_True.
  - rewrite resume_closed by done. pose proof FADE_NS_pos.
    unfold Inv, resume_audio_device in *. fields.
    destruct (audio_device_ p); fields; lia.
Qed.

Lemma inv_read_tags d p : Inv p -> Inv (read_tags d p).
Proof.
  unfold read_tags. destruct (dec_track d) as [f |]; [| done].
  destruct (mp3_has_id3 f), (mp3_id3v2 f), (mp3_id3v1 f); done.
Qed.

(** [load_song]: the state it leaves, and what a completed load
    establishes. *)
Lemma load_song_spec fs dev path p :
  files_ok fs -> Inv p ->
  Inv (snd (load_song fs dev path p)) /\
  (fst (load_song fs dev path p) = Normal ->
   elapsed_seconds_ (snd (load_song fs dev path p)) = 0 /\
   elapsed_duration_ (snd (load_song fs dev path p)) = 0).
Proof.
  intros Hfs H. unfold load_song.
  assert (H1 : Inv (pause_audio_device (set_state_ STOPPED p)))
    by now apply inv_pause_audio_device.
  set (p1 := pause_audio_device (set_state_ STOPPED p)) in *.
  destruct (fs path) as [f |] eqn:Hf; cbn [mpg123_open dec_track]; cbv zeta.
  2: { destruct (decide (MPG123_ERR <> MPG123_OK)) as [_ | E];
         [| now destruct E].
       split; [exact H1 | discriminate]. }
  destruct (decide (MPG123_OK <> MPG123_OK)) as [E | _]; [done |].
  destruct (Hfs _ _ Hf) as [Hrate Hlen].
  unfold mpg123_getformat, mpg123_length. cbn [dec_track].
  destruct (decide (mp3_length f <> MPG123_ERR_off /\ mp3_rate f = 0))
    as [[_ E] | _]; [lia |].
  set (p4 := if decide (mp3_length f <> MPG123_ERR_off) then _ else _).
  assert (H4 : Inv p4 /\ 0 <= total_seconds_ p4).
  { unfold p4, Inv in *. case_decide as Hl; fields.
    - destruct Hlen as [Hlen | [Hl0 Hl1]]; [done |].
      assert (0 <= to_int (mp3_length f ÷ mp3_rate f))
        by (apply to_int_nonneg; split; [now apply quot_nonneg | done]).
      lia.
    - lia. }
  set (p6 := read_tags _ _).
  assert (H6 : Inv p6 /\ elapsed_seconds_ p6 = 0 /\ elapsed_duration_ p6 = 0).
  { unfold p6, read_tags. cbn [dec_track].
    destruct H4 as [H4 _]. unfold Inv in *.
    destruct (mp3_has_id3 f), (mp3_id3v2 f), (mp3_id3v1 f); fields; lia. }
  destruct H6 as (H6 & E1 & E2).
  destruct (decide (dev = 0)); cbn [fst snd].
  - split; [exact H6 | discriminate].
  - unfold pause_audio_device. fields. split; [exact H6 | done].
Qed.

Lemma inv_load_song fs dev path p :
  files_ok fs -> Inv p -> Inv (snd (load_song fs dev path p)).
Proof. intros Hfs H. now apply load_song_spec. Qed.

Lemma inv_change_song move fs dev p :
  files_ok fs -> Inv p -> Inv (snd (change_song move fs dev p)).
Proof.
  intros Hfs H. unfold change_song.
  destruct (playlist_ p) as [pl |]; [| done].
  pose proof (inv_pause p H) as H1.
  destruct (move pl) as [[path |] pl']; cbn [snd]; [| exact H1].
  pose proof (inv_load_song fs dev path (set_playlist_ (Some pl') (pause p))
                Hfs H1) as H3.
  destruct (load_song fs dev path _) as [[| what | signal] p3]; cbn [snd] in *;
    [now apply inv_resume | exact H3 | exact H3].
Qed.

Lemma seek_target_range delta p :
  0 <= total_seconds_ p -> 0 <= seek_target delta p <= total_seconds_ p.
Proof. intros H. now apply std_clamp_int_range. Qed.

Lemma inv_seek_relative delta p : Inv p -> Inv (seek_relative delta p).
Proof.
  intros H. unfold seek_relative.
  case_decide as Hst; [done |].
  destruct (audio_device_ p) as [id |] eqn:Hdev; [| done].
  destruct (mpg123_seek _ _) as [r d].
  case_decide as Hr; [exact H |].
  apply inv_resume. pose proof (seek_target_range delta p) as Ht.
  unfold Inv in *. fields. lia.
Qed.

Lemma inv_wait_until_buffer_has_space delay mult polls p p' :
  0 <= delay -> Inv p ->
  wait_until_buffer_has_space delay mult polls p = Some p' -> Inv p'.
Proof.
  intros Hd H. unfold wait_until_buffer_has_space.
  case_decide; [| now intros [= <-]].
  destruct (audio_device_ p); [| discriminate].
  case_decide; intros [= <-]; [done |]. unfold Inv in *. fields.
  assert (0 <= Z.of_nat (S polls) * delay * NS_PER_MS)
    by (unfold NS_PER_MS; nia).
  lia.
Qed.

Lemma inv_wait_for_buffer_to_drain polls p :
  Inv p -> Inv (wait_for_buffer_to_drain polls p).
Proof.
  intros H. unfold wait_for_buffer_to_drain. cbv zeta.
  case_decide; [| done]. destruct (audio_device_ p); [| done].
  case_decide; [done |]. unfold Inv in *. fields.
  assert (0 <= Z.of_nat (S polls) * 50 * NS_PER_MS)
    by (unfold NS_PER_MS; nia).
  lia.
Qed.

Lemma inv_update_elapsed_time p :
  elapsed_fits_int p = true -> Inv p -> Inv (update_elapsed_time p).
Proof.
  intros Hfit H. unfold elapsed_fits_int in Hfit.
  apply bool_decide_eq_true in Hfit.
  unfold update_elapsed_time, Inv in *. fields.
  assert (0 <= (elapsed_duration_ p * NS_PER_MS + (clock p - start_time_ p))
               ÷ NS_PER_S)
    by (apply quot_nonneg; [unfold NS_PER_MS; nia | reflexivity]).
  split_and!; try lia. now apply to_int_nonneg.
Qed.

Lemma inv_stream_audio_iter polls p :
  elapsed_fits_int p = true -> Inv p ->
  Inv (match stream_audio_iter polls p with
       | Some (_, p') => p'
       | None => stream_audio_polling p
       end).
Proof.
  intros Hfit H. unfold stream_audio_iter, stream_audio_polling. cbv zeta.
  case_decide; [| done].
  destruct (mpg123_read (mpg_handler_ p)) as [[ret bytes] d].
  assert (H2 : Inv (update_elapsed_time (set_mpg_handler_ d p)))
    by now apply inv_update_elapsed_time.
  case_decide; [| done].
  pose proof (inv_wait_until_buffer_has_space 10 32 polls
                (update_elapsed_time (set_mpg_handler_ d p))) as H3.
  destruct (wait_until_buffer_has_space 10 32 polls _) as [p3 |]; [| exact H2].
  specialize (H3 p3 ltac:(lia) H2 eq_refl).
  destruct (audio_device_ p3); done.
Qed.

Lemma inv_end_of_track fs dev p :
  files_ok fs -> Inv p -> Inv (snd (end_of_track fs dev p)).
Proof.
  intros Hfs H. unfold end_of_track. case_decide; [| done].
  fields. destruct (playlist_ p) eqn:Hpl; [| done].
  now apply inv_change_song.
Qed.

Lemma inv_dtor p : Inv p -> Inv (dtor p).
Proof. intros H. unfold dtor. fields. now destruct (audio_device_ p). Qed.

Lemma inv_step fs p ev :
  files_ok fs -> Inv p -> event_ok p ev = true -> Inv (step fs p ev).
Proof.
  intros Hfs H Hok. destruct ev; cbn [step event_ok] in *.
  - apply bool_decide_eq_true in Hok. unfold Inv in *. fields. lia.
  - unfold set_playlist, load_current. fields.
    destruct playlist as [pl |]; [| done].
    destruct (Playlist.current pl); [| done]. now apply inv_load_song.
  - now apply inv_load_song.
  - now apply inv_change_song.
  - now apply inv_change_song.
  - now apply inv_pause.
  - now apply inv_resume.
  - now apply inv_seek_relative.
  - done.
  - done.
  - now apply inv_fade_to.
  - done.
  - assert (H0 : Inv (sleep_for_ms 5 p)).
    { unfold Inv in *. fields. unfold NS_PER_MS. lia. }
    case_decide; [done | now apply inv_resume_audio_device].
  - now apply inv_stream_audio_iter.
  - now apply inv_wait_for_buffer_to_drain.
  - now apply inv_end_of_track.
  - now apply inv_dtor.
Qed.

Lemma inv_run fs evs : forall p,
  files_ok fs -> Inv p -> run_ok fs evs p = true -> Inv (run fs evs p).
Proof.
  induction evs as [| ev evs IH]; intros p Hfs H Hok; [done |].
  cbn [run_ok] in Hok. apply andb_prop in Hok as [Hev Hrest].
  unfold run. cbn [foldl]. apply IH; [done | | done].
  now apply inv_step.
Qed.

Lemma inv_ctor t0 : 0 <= t0 -> Inv (ctor t0).
Proof. intros H. unfold Inv, ctor. fields. lia. Qed.

(** C1 (as amended) — Progress is never negative. In every state
    reached from the constructor by calls of the command surface, steps
    of the streaming thread and the passing of time (the clock at or
    after its epoch and never going back, mpg123 reporting a positive
    rate and a length whose seconds fit an [int], the elapsed seconds
    within [int]), both values of [get_progress] are at least 0 and so
    is the carried duration; a [load_song] that completes there leaves
    elapsed at 0, not above the total; and every seek target lies in
    [0, total]. *)
Theorem progress_nonneg (fs : string -> option Mp3File) (t0 : Z)
    (evs : list event) :
  files_ok fs -> 0 <= t0 -> run_ok fs evs (ctor t0) = true ->
  let p := run fs evs (ctor t0) in
  0 <= fst (get_progress p) /\ 0 <= snd (get_progress p) /\
  0 <= elapsed_duration_ p /\
  (forall dev path,
     fst (load_song fs dev path p) = Normal ->
     let p' := snd (load_song fs dev path p) in
     fst (get_progress p') = 0 /\ elapsed_duration_ p' = 0 /\
     fst (get_progress p') <= snd (get_progress p')) /\
  (forall delta, 0 <= seek_target delta p <= total_seconds_ p).
Proof.
  intros Hfs Ht0 Hok p.
  assert (H : Inv p) by (apply inv_run; [done | now apply inv_ctor | done]).
  pose proof H as (H1 & H2 & H3 & H4).
  split_and!; try done.
  - intros dev path Hn p'.
    destruct (load_song_spec fs dev path p Hfs H) as [Hi Hz].
    destruct (Hz Hn) as [E1 E2]. destruct Hi as (_ & Hi & _).
    unfold get_progress. cbn [fst snd]. fold p'. fold p' in E1, E2, Hi.
    rewrite E1. split_and!; [done | done | exact Hi].
  - intros delta. now apply seek_target_range.
Qed.

(** ** The streaming thread *)

Lemma wait_until_buffer_has_space_frame delay mult polls p p' :
  wait_until_buffer_has_space delay mult polls p = Some p' ->
  state_ p' = state_ p /\ playlist_ p' = playlist_ p /\
  audio_device_ p' = audio_device_ p /\ mpg_handler_ p' = mpg_handler_ p.
Proof.
  unfold wait_until_buffer_has_space.
  case_decide; [| now intros [= <-]].
  destruct (audio_device_ p) as [id |] eqn:Hd; [| discriminate].
  case_decide; intros [= <-]; fields; done.
Qed.

(** With a value in the handle the wait for space returns. *)
Lemma wait_until_buffer_has_space_returns delay mult polls p :
  audio_device_ p <> None ->
  exists p', wait_until_buffer_has_space delay mult polls p = Some p'.
Proof.
  intros Hd. unfold wait_until_buffer_has_space.
  case_decide; [| eauto].
  destruct (audio_device_ p) as [id |]; [| done].
  case_decide; eauto.
Qed.

Lemma stream_audio_iter_frame polls p b p1 :
  stream_audio_iter polls p = Some (b, p1) ->
  state_ p1 = state_ p /\
  playlist_ p1 = playlist_ p /\
  audio_device_ p1 = audio_device_ p /\
  (b = true ->
   (length (dec_pending (mpg_handler_ p1))
    < length (dec_pending (mpg_handler_ p)))%nat).
Proof.
  unfold stream_audio_iter. cbv zeta.
  case_decide as Hst; [| intros [= <- <-]; split_and!; [done.. | discriminate]].
  unfold mpg123_read.
  destruct (dec_track (mpg_handler_ p)) as [f |];
    [| rewrite decide_False by discriminate; intros [= <- <-];
       split_and!; [done.. | discriminate]].
  destruct (dec_pending (mpg_handler_ p)) as [| [ret bytes] rest] eqn:Hp;
    [rewrite decide_False by discriminate; intros [= <- <-];
     split_and!; [done.. | discriminate] |].
  case_decide as Hret;
    [| intros [= <- <-]; split_and!; [done.. | discriminate]].
  destruct (wait_until_buffer_has_space 10 32 polls _) as [p3 |] eqn:Hw;
    [| discriminate].
  apply wait_until_buffer_has_space_frame in Hw as (W1 & W2 & W3 & W4).
  unfold update_elapsed_time in *. fields.
  intros [= <- <-].
  destruct (audio_device_ p3) as [id |] eqn:Hd; fields; rewrite ?Hd, ?W4; fields;
    (split_and!; [done.. | intros _; cbn [dec_pending length]; lia]).
Qed.

(** With a value in the handle a pass of the loop of [stream_audio]
    comes to its end. *)
Lemma stream_audio_iter_returns polls p :
  audio_device_ p <> None ->
  exists b p1, stream_audio_iter polls p = Some (b, p1).
Proof.
  intros Hd. unfold stream_audio_iter. cbv zeta.
  case_decide; [| eauto].
  destruct (mpg123_read (mpg_handler_ p)) as [[ret bytes] d].
  case_decide; [| eauto].
  destruct (wait_until_buffer_has_space_returns 10 32 polls
              (update_elapsed_time (set_mpg_handler_ d p))) as [p3 ->];
    [unfold update_elapsed_time; fields; done |].
  eauto.
Qed.



(** With an empty handle, a playing player and a read that succeeds,
    the pass polls without end, and with it [stream_audio] and the pass
    of [player_thread]. *)
Lemma stream_audio_polls_without_end fs env polls p f n rest :
  state_ p = PLAY -> audio_device_ p = None ->
  mpg_handler_ p = Dec (Some f) ((MPG123_OK, n) :: rest) ->
  stream_audio_iter (polls O) p = None /\
  stream_audio polls p = None /\
  player_thread_body fs env p = None.
Proof.
  intros Hst Hd Hh.
  assert (Hi : forall k q, state_ q = PLAY -> audio_device_ q = None ->
                 mpg_handler_ q = Dec (Some f) ((MPG123_OK, n) :: rest) ->
                 stream_audio_iter k q = None).
  { intros k q Hq1 Hq2 Hq3. unfold stream_audio_iter. cbv zeta.
    rewrite decide_True by done. rewrite Hq3.
    cbn [mpg123_read dec_track dec_pending]. rewrite decide_True by done.
    unfold wait_until_buffer_has_space, update_elapsed_time. fields.
    rewrite decide_True by done. now rewrite Hq2. }
  split_and!.
  - now apply Hi.
  - unfold stream_audio. cbn [stream_audio_loop]. now rewrite Hi.
  - unfold player_thread_body, stream_audio. cbv zeta.
    rewrite decide_False by (fields; intros H; now apply H).
    cbn [stream_audio_loop]. rewrite Hi; [done | ..];
      unfold resume_audio_device; fields; rewrite Hd; fields; done.
Qed.

(** Streaming stops at the first read that is not [MPG123_OK]: the
    reads before it are all consumed, the ones behind it are not
    asked for. *)
Lemma stream_audio_loop_stops oks : forall fuel polls p f ret n rest,
  state_ p = PLAY ->
  audio_device_ p <> None ->
  dec_track (mpg_handler_ p) = Some f ->
  dec_pending (mpg_handler_ p) = oks ++ (ret, n) :: rest ->
  Forall (fun r => fst r = MPG123_OK) oks ->
  ret <> MPG123_OK ->
  (length oks < fuel)%nat ->
  exists p', stream_audio_loop fuel polls p = Some p' /\
             mpg_handler_ p' = Dec (Some f) rest.
Proof.
  induction oks as [| [r k] oks IH];
    intros fuel polls p f ret n rest Hst Hd Hf Hp Hok Hret Hfuel;
    (destruct fuel as [| fuel]; [cbn [length] in Hfuel; lia |]);
    cbn [stream_audio_loop].
  - unfold stream_audio_iter. cbv zeta.
    rewrite decide_True by done. unfold mpg123_read. rewrite Hf, Hp.
    cbn [app]. rewrite decide_False by done.
    eexists. split; [reflexivity |]. fields. done.
  - apply Forall_cons in Hok as [Hr Hok]. cbn [fst] in Hr. subst r.
    destruct (stream_audio_iter_returns (polls O) p Hd) as (b & p1 & Hi).
    rewrite Hi.
    destruct (stream_audio_iter_frame _ _ _ _ Hi) as (E1 & E2 & E3 & _).
    assert (Hb : b = true /\ mpg_handler_ p1 = Dec (Some f) (oks ++ (ret, n) :: rest)).
    { revert Hi. unfold stream_audio_iter. cbv zeta.
      rewrite decide_True by done. unfold mpg123_read. rewrite Hf, Hp.
      cbn [app]. rewrite decide_True by done.
      destruct (wait_until_buffer_has_space 10 32 (polls O) _) as [p3 |] eqn:Hw;
        [| discriminate].
      apply wait_until_buffer_has_space_frame in Hw as (_ & _ & _ & W4).
      unfold update_elapsed_time in W4. fields.
      intros [= <- <-]. split; [reflexivity |].
      destruct (audio_device_ p3); fields; exact W4. }
    destruct Hb as [-> Hh1].
    destruct (IH fuel (fun k => polls (S k)) p1 f ret n rest)
      as (p' & Hl & Hh); try done; try congruence.
    + now rewrite Hh1.
    + now rewrite Hh1.
    + cbn [length] in Hfuel. lia.
    + exists p'. done.
Qed.

Lemma stream_audio_stops polls p f oks ret n rest :
  state_ p = PLAY ->
  audio_device_ p <> None ->
  dec_track (mpg_handler_ p) = Some f ->
  dec_pending (mpg_handler_ p) = oks ++ (ret, n) :: rest ->
  Forall (fun r => fst r = MPG123_OK) oks ->
  ret <> MPG123_OK ->
  exists p', stream_audio polls p = Some p' /\
             mpg_handler_ p' = Dec (Some f) rest.
Proof.
  intros Hst Hd Hf Hp Hok Hret. unfold stream_audio.
  eapply stream_audio_loop_stops; try done.
  rewrite Hp, length_app. cbn [length]. lia.
Qed.

(** The loop of [stream_audio] is a run of [ThreadStreams] steps, and a
    pass of [player_thread] a run of steps of the thread. *)
Lemma stream_audio_loop_is_run fs fuel : forall polls p p',
  stream_audio_loop fuel polls p = Some p' ->
  exists ks : list nat, p' = run fs (ThreadStreams <$> ks) p.
Proof.
  induction fuel as [| fuel IH]; intros polls p p' H; [discriminate |].
  cbn [stream_audio_loop] in H.
  destruct (stream_audio_iter (polls O) p) as [[[|] p1] |] eqn:Hi;
    [| | discriminate].
  - destruct (IH _ _ _ H) as [ks ->]. exists (polls O :: ks).
    unfold run. cbn [fmap list_fmap foldl step]. now rewrite Hi.
  - injection H as <-. exists [polls O].
    unfold run. cbn [fmap list_fmap foldl step]. now rewrite Hi.
Qed.

Lemma player_thread_body_is_run fs env p c p' :
  player_thread_body fs env p = Some (c, p') ->
  exists evs, p' = run fs evs p.
Proof.
  unfold player_thread_body. cbv zeta. intros H.
  case_decide as Hst.
  - injection H as <- <-. exists [ThreadWakes].
    unfold run. cbn [foldl step]. now rewrite decide_True.
  - destruct (stream_audio _ _) as [p2 |] eqn:Hs; [| discriminate].
    injection H as H. apply stream_audio_loop_is_run with (fs := fs) in Hs
      as [ks ->].
    exists ([ThreadWakes] ++ (ThreadStreams <$> ks)
            ++ [ThreadDrains (drain_polls env);
                ThreadEndOfTrack (open_device env)]).
    unfold run. rewrite !foldl_app. cbn [foldl step]. cbv zeta.
    destruct (decide (state_ (sleep_for_ms 5 p) <> PLAY)) as [E | _];
      [now destruct Hst |].
    unfold run in H. now rewrite H.
Qed.



(** A track that mpg123 opens with a length and a rate of 0 ends
    [load_song], and the process, at the division: the player is left
    stopped with the track open and the progress of the track before. *)
Lemma load_song_divides_by_zero fs dev path f p :
  fs path = Some f -> mp3_length f <> MPG123_ERR_off -> mp3_rate f = 0 ->
  fst (load_song fs dev path p) = Killed "SIGFPE" /\
  state_ (snd (load_song fs dev path p)) = STOPPED /\
  get_progress (snd (load_song fs dev path p)) = get_progress p.
Proof.
  intros Hf Hlen Hrate. unfold load_song. cbv zeta. rewrite Hf.
  cbn [mpg123_open dec_track].
  destruct (decide (MPG123_OK <> MPG123_OK)) as [E | _]; [done |].
  unfold mpg123_getformat, mpg123_length. cbn [dec_track].
  rewrite decide_True by done.
  unfold pause_audio_device, get_progress. fields.
  destruct (audio_device_ p); fields; done.
Qed.





End PlayerFacts.

(* ===================================================================== *)
(** * The statements at concrete inputs *)
(* ===================================================================== *)

Section Instances.
Import Player.

Lemma sample_cursor_ok : Playlist.cursor_ok Sample.playlist_at_1.
Proof. change (3 < 2 ^ 64 /\ 0 <= 1 < 3). lia. Defined.

Lemma sample_wf : Playlist.wf Sample.playlist_at_1.
Proof.
  split_and!; [| exact sample_cursor_ok | reflexivity].
  repeat constructor; discriminate.
Defined.

(** The constructor builds [Sample.playlist] from [Sample.listing]. *)
Lemma sample_playlist_built :
  Playlist.ctor "music" (Some Sample.listing) = Ok Sample.playlist.
Proof. vm_compute. reflexivity. Qed.

(** Three songs, cursor on the second: three calls of [next()] return
    to it, and [prev()] undoes [next()]. *)
Lemma next_prev_cyclic_witness :
  Playlist.cursor_ok Sample.playlist_at_1 /\
  Playlist.nexts 3 Sample.playlist_at_1 = Sample.playlist_at_1 /\
  Playlist.prev (snd (Playlist.next Sample.playlist_at_1))
  = (Some "music/b.mp3"%string, Sample.playlist_at_1).
Proof.
  split; [exact sample_cursor_ok |].
  pose proof (next_prev_cyclic Sample.playlist_at_1 sample_cursor_ok)
    as (H1 & _ & H3 & _).
  split; [exact H1 | exact H3].
Defined.

Lemma has_next_has_prev_boundaries_witness :
  Playlist.cursor_ok Sample.playlist_at_1 /\
  (Playlist.has_next Sample.playlist_at_1 = false
   <-> Playlist.index_ Sample.playlist_at_1
       = Playlist.size Sample.playlist_at_1 - 1).
Proof.
  split; [exact sample_cursor_ok |].
  exact (proj1 (has_next_has_prev_boundaries Sample.playlist_at_1
                  sample_cursor_ok)).
Defined.

Lemma reshuffle_valid_witness :
  Playlist.wf Sample.playlist_at_1 /\
  Playlist.index_ (Playlist.reshuffle Sample.always_5 Sample.playlist_at_1) = 0 /\
  NoDup (Playlist.shuffle_order_
           (Playlist.reshuffle Sample.always_5 Sample.playlist_at_1)).
Proof.
  split; [exact sample_wf |].
  pose proof (reshuffle_valid Sample.always_5 Sample.playlist_at_1 sample_wf)
    as (H1 & _ & _ & _ & H5 & _).
  split; [exact H1 | exact H5].
Defined.

Lemma set_volume_clamps_witness :
  is_nan Sample.half = false /\
  fleb VOLUME_MUTE (get_volume (set_volume Sample.half (ctor 0))) = true /\
  fleb (get_volume (set_volume Sample.half (ctor 0))) VOLUME_FULL = true.
Proof.
  split; [reflexivity |].
  pose proof (set_volume_clamps Sample.half (ctor 0) eq_refl)
    as (_ & H2 & H3 & _).
  split; [exact H2 | exact H3].
Defined.

Lemma seek_relative_playing_witness :
  state_ (Sample.playing "music/a.mp3") = PLAY /\
  INT_MIN <= elapsed_seconds_ (Sample.playing "music/a.mp3") + 5 <= INT_MAX /\
  seek_target 5 (Sample.playing "music/a.mp3")
  = Z.max 0 (Z.min (elapsed_seconds_ (Sample.playing "music/a.mp3") + 5)
                   (total_seconds_ (Sample.playing "music/a.mp3"))) /\
  elapsed_duration_ (seek_relative 5 (Sample.playing "music/a.mp3"))
  = seek_target 5 (Sample.playing "music/a.mp3") * 1000.
Proof.
  split; [reflexivity |].
  assert (H0 : INT_MIN <= elapsed_seconds_ (Sample.playing "music/a.mp3") + 5
               <= INT_MAX)
    by (vm_compute; split; discriminate).
  split; [exact H0 |].
  assert (H1 : state_ (Sample.playing "music/a.mp3") = PLAY)
    by (vm_compute; reflexivity).
  assert (H2 : audio_device_ (Sample.playing "music/a.mp3") = Some 2)
    by (vm_compute; reflexivity).
  assert (H3 : 0 <= total_seconds_ (Sample.playing "music/a.mp3"))
    by (vm_compute; discriminate).
  assert (H4 : fst (mpg123_seek (seek_offset 5 (Sample.playing "music/a.mp3"))
                      (mpg_handler_ (Sample.playing "music/a.mp3")))
               <> MPG123_ERR_off)
    by (vm_compute; discriminate).
  pose proof (seek_relative_playing 5 (Sample.playing "music/a.mp3") 2
                H1 H2 H3 H4)
    as (Ha & _ & _ & _ & _ & _ & _ & _ & _ & _ & H & _).
  split; [exact (proj2 (Ha H0)) | exact H].
Defined.

Lemma seek_relative_rejected_witness :
  fst (mpg123_seek (seek_offset 5 (Sample.playing "music/n.mp3"))
         (mpg_handler_ (Sample.playing "music/n.mp3"))) = MPG123_ERR_off /\
  elapsed_duration_ (seek_relative 5 (Sample.playing "music/n.mp3"))
  = elapsed_duration_ (Sample.playing "music/n.mp3").
Proof.
  assert (H1 : state_ (Sample.playing "music/n.mp3") <> SWITCH_OFF)
    by (vm_compute; discriminate).
  assert (H2 : audio_device_ (Sample.playing "music/n.mp3") = Some 2)
    by (vm_compute; reflexivity).
  assert (H3 : fst (mpg123_seek (seek_offset 5 (Sample.playing "music/n.mp3"))
                      (mpg_handler_ (Sample.playing "music/n.mp3")))
               = MPG123_ERR_off)
    by (vm_compute; reflexivity).
  split; [exact H3 |].
  pose proof (seek_relative_rejected 5 (Sample.playing "music/n.mp3") 2
                H1 H2 H3) as (_ & H & _).
  exact H.
Defined.

Lemma seek_relative_unknown_duration_witness :
  total_seconds_ (Sample.playing "music/u.mp3") = 0 /\
  seek_target 5 (Sample.playing "music/u.mp3") = 0 /\
  seek_target (-5) (Sample.playing "music/u.mp3") = 0.
Proof.
  assert (H : total_seconds_ (Sample.playing "music/u.mp3") = 0)
    by (vm_compute; reflexivity).
  split; [exact H |].
  split.
  - exact (proj1 (seek_relative_unknown_duration 5 _ H)).
  - exact (proj1 (seek_relative_unknown_duration (-5) _ H)).
Defined.

Lemma sample_files_ok : files_ok Sample.fs.
Proof.
  intros path f. unfold Sample.fs.
  destruct (String.eqb path "music/a.mp3").
  { intros [= <-]. split; [reflexivity |]. right. split; discriminate. }
  destruct (String.eqb path "music/v.mp3").
  { intros [= <-]. split; [reflexivity |]. right. split; discriminate. }
  destruct (String.eqb path "music/n.mp3").
  { intros [= <-]. split; [reflexivity |]. right. split; discriminate. }
  destruct (String.eqb path "music/u.mp3").
  { intros [= <-]. split; [reflexivity |]. left. reflexivity. }
  discriminate.
Defined.

Lemma progress_nonneg_witness :
  run_ok Sample.fs Sample.short_run (ctor 0) = true /\
  0 <= fst (get_progress (run Sample.fs Sample.short_run (ctor 0))) /\
  0 <= snd (get_progress (run Sample.fs Sample.short_run (ctor 0))).
Proof.
  assert (H : run_ok Sample.fs Sample.short_run (ctor 0) = true)
    by (vm_compute; reflexivity).
  split; [exact H |].
  pose proof (progress_nonneg Sample.fs 0 Sample.short_run sample_files_ok
                ltac:(lia) H) as (H1 & H2 & _).
  split; [exact H1 | exact H2].
Defined.



(** C1, counterexample — Elapsed time above the total. The track
    [music/v.mp3] has 600000 samples and a reported length of 441000,
    which [load_song] stores as a total of 10 seconds. Loaded, resumed
    and streamed one buffer at a time, the decoder still delivers after
    thirteen seconds of wall clock, and [update_elapsed_time] stores 13:
    [get_progress] returns (13, 10). Every step of the run is one the
    time invariant is proved for. *)
Lemma elapsed_exceeds_total :
  let p := run Sample.fs Sample.long_play (ctor 0) in
  files_ok Sample.fs /\
  run_ok Sample.fs Sample.long_play (ctor 0) = true /\
  state_ p = PLAY /\
  get_progress p = (13, 10) /\
  0 < snd (get_progress p) /\
  ~ (fst (get_progress p) <= snd (get_progress p)).
Proof.
  cbv zeta. split; [exact sample_files_ok |].
  assert (E : get_progress (run Sample.fs Sample.long_play (ctor 0)) = (13, 10))
    by (vm_compute; reflexivity).
  rewrite E. cbn [fst snd].
  split_and!; [vm_compute; reflexivity | vm_compute; reflexivity
              | reflexivity | lia | lia].
Qed.

(** The carried duration counts the time of a pause when [pause()] is
    called again before [resume()]: six seconds into [music/a.mp3], a
    pause, and a second [pause()] ten seconds later leave, once
    playback goes on, an elapsed time of 25 seconds in a track of 10. *)
Lemma pause_twice_counts_the_pause :
  let p := run Sample.fs Sample.pause_twice (ctor 0) in
  run_ok Sample.fs Sample.pause_twice (ctor 0) = true /\
  get_progress p = (25, 10) /\ elapsed_duration_ p = 24924.
Proof. vm_compute. repeat split; reflexivity. Qed.


End Instances.
